(** * parprog: parallel progress display and bounded dispatcher

    A shallow embedding of the Go package [parprog] (status.go, the Viz
    registry and BoundedExec) together with the properties its
    specification states about it.

    Conventions of the embedding.
    - Go's [int], [int64] and [time.Duration] are [Z]; where the source can
      leave the 64-bit range the wrap-around or saturation is written out.
    - [time.Time] is the number of nanoseconds since Go's zero time.
    - [float64] is [spec_float] at precision 53 and maximal exponent 1024,
      with the IEEE-754 operations of the Standard Library.
    - The operating system, the wall clock and the terminal are an oracle
      [Env]; every call into them is counted and recorded in the [World].
    - A run-time panic is the [Panic] outcome of the [M] monad. *)

From Stdlib Require Import ZArith List String Ascii Bool Lia Permutation.
From Stdlib Require Import Floats.SpecFloat.
Import ListNotations.

Open Scope string_scope.
Open Scope Z_scope.

(** ** Go values shared by the three source files *)

Definition Time := Z.
Definition Duration := Z.
Definition float64 := spec_float.
(** A [*os.File]: nil, or an open descriptor. *)
Definition File := option nat.
Definition error := string.

Definition minInt64 : Z := - 2 ^ 63.
Definition maxInt64 : Z := 2 ^ 63 - 1.
Definition wrap64 (z : Z) : Z := (z + 2 ^ 63) mod 2 ^ 64 - 2 ^ 63.

(** [time.Second], in nanoseconds. *)
Definition Second : Duration := 1000000000.

(** [t.Truncate(d)]: round [t] down to a multiple of [d] since the zero
    time; a non-positive [d] leaves [t] as it is. *)
Definition Truncate (t : Time) (d : Duration) : Time :=
  if d <=? 0 then t else t - t mod d.

(** [t.Sub(u)]: the difference as a Duration, saturated to the int64 range. *)
Definition Sub (t u : Time) : Duration :=
  Z.max minInt64 (Z.min maxInt64 (t - u)).

Definition prec : Z := 53.
Definition emax : Z := 1024.

(** The conversion [float64(n)] of an integer and the float64 division. *)
Definition float64_of_int (n : Z) : float64 := binary_normalize prec emax n 0 false.
Definition float64_div (x y : float64) : float64 := SFdiv prec emax x y.

(** The constant [100.0]. *)
Definition f100 : float64 := S754_finite false 7036874417766400 (-46).

(** ** Panics and the monad of effects *)

Inductive panic : Type :=
| NilDereference
| SliceBoundsOutOfRange (bound : Z)
| IndexOutOfRange (index : Z)
| MakeChanSizeOutOfRange (size : Z).

Inductive result (A : Type) : Type :=
| Ok (a : A)
| Panic (p : panic).
Arguments Ok {A} a.
Arguments Panic {A} p.

(** An argument handed to [fmt.Sprintf]: [d.String()] of a Duration for
    [%s], a float64 for [%6.2f], a byte for [%c]. *)
Inductive arg : Type :=
| ArgDuration (d : Duration)
| ArgFloat (x : float64)
| ArgChar (c : ascii).

(** The status line, as the call of [fmt.Sprintf] that builds it. *)
Record Status : Type := Sprintf {
  format : string;
  args   : list arg
}.

(** What the program asks of its surroundings, in the order it asks. The
    cells of a screen row are painted by termbox one by one; a row is
    recorded whole, with the terminal width it is clipped to. *)
Inductive Event : Type :=
| EvNow
| EvStat (f : File)
| EvSeek (f : File)
| EvSize
| EvClear
| EvHeader (width : Z) (running : Duration)
| EvRow (width y : Z) (status : Status) (name es : string)
| EvFlush.

(** The answers of the surroundings. The [n]-th call of the program (counted
    over all calls) is answered by the oracle at [n]. *)
Record Env : Type := mkEnv {
  env_now  : nat -> Time;
  env_stat : nat -> nat -> Z + error;
  env_seek : nat -> nat -> Z + error;
  env_size : nat -> Z * Z
}.

Record World : Type := mkWorld {
  tick  : nat;
  trace : list Event
}.

Definition M (A : Type) : Type := World -> result (A * World).

Definition ret {A} (a : A) : M A := fun w => Ok (a, w).
Definition bind {A B} (m : M A) (k : A -> M B) : M B :=
  fun w => match m w with
           | Ok (a, w') => k a w'
           | Panic p => Panic p
           end.
Definition throw {A} (p : panic) : M A := fun _ => Panic p.

Notation "x <- m ;; k" := (bind m (fun x => k))
  (at level 61, m at next level, right associativity).
Notation "m ;;; k" := (bind m (fun _ => k))
  (at level 61, right associativity).

Definition emit (e : Event) : World -> World :=
  fun w => mkWorld (S (tick w)) (trace w ++ [e]).

(** ErrInvalid of package os, returned for a nil [*os.File]. *)
Definition ErrInvalid : error := "invalid argument".

Section Program.

Variable env : Env.

Definition time_Now : M Time :=
  fun w => Ok (env_now env (tick w), emit EvNow w).

(** [f.Stat()] followed by [info.Size()]; a nil file answers ErrInvalid. *)
Definition os_Stat (f : File) : M (Z + error) :=
  fun w => match f with
           | None => Ok (inr ErrInvalid, emit (EvStat f) w)
           | Some fd => Ok (env_stat env fd (tick w), emit (EvStat f) w)
           end.

(** [f.Seek(0, os.SEEK_CUR)]; a nil file answers ErrInvalid. *)
Definition os_Seek (f : File) : M (Z + error) :=
  fun w => match f with
           | None => Ok (inr ErrInvalid, emit (EvSeek f) w)
           | Some fd => Ok (env_seek env fd (tick w), emit (EvSeek f) w)
           end.

(** [time.Now().Truncate(time.Second)], used all over the package. *)
Definition now_seconds : M Time :=
  t <- time_Now ;; ret (Truncate t Second).

(** ** status.go *)

Definition Wheel : string := "/-\|".

Definition len (s : string) : Z := Z.of_nat (String.length s).

(** [s[i]] on a string: the byte, or the index panic. *)
Definition index (s : string) (i : Z) : M ascii :=
  if (0 <=? i) && (i <? len s) then
    match String.get (Z.to_nat i) s with
    | Some c => ret c
    | None => throw (IndexOutOfRange i)
    end
  else throw (IndexOutOfRange i).

Definition fmt_done : string := "%s %6.2f%%".
Definition fmt_spin : string := "%s    %c   ".

Class readStatusInterface (V : Type) : Type := {
  readStatus : V -> M (V * Status);
  done : V -> M V
}.

Record spinner : Type := mkSpinner {
  s_w       : Z;
  s_start   : Time;
  s_elapsed : Duration
}.

Definition newSpinner : M spinner :=
  t <- now_seconds ;; ret (mkSpinner 0 t 0).

Definition spinner_readStatus (s : spinner) : M (spinner * Status) :=
  if negb (s_elapsed s =? 0) then
    ret (s, Sprintf fmt_done [ArgDuration (s_elapsed s); ArgFloat f100])
  else
    let s := mkSpinner (Z.rem (wrap64 (s_w s + 1)) (len Wheel)) (s_start s) (s_elapsed s) in
    t <- now_seconds ;;
    c <- index Wheel (s_w s) ;;
    ret (s, Sprintf fmt_spin [ArgDuration (Sub t (s_start s)); ArgChar c]).

Definition spinner_done (s : spinner) : M spinner :=
  t <- now_seconds ;;
  let s := mkSpinner (s_w s) (s_start s) (Sub t (s_start s)) in
  if s_elapsed s =? 0 then ret (mkSpinner (s_w s) (s_start s) Second)
  else ret s.

#[export] Instance spinner_view : readStatusInterface spinner := {
  readStatus := spinner_readStatus;
  done := spinner_done
}.

Record fileWrapper : Type := mkFileWrapper {
  w_sz      : float64;
  w_f       : File;
  w_start   : Time;
  w_elapsed : Duration
}.

Definition fileWrapper_done (w : fileWrapper) : M fileWrapper :=
  t <- now_seconds ;;
  ret (mkFileWrapper (w_sz w) (w_f w) (w_start w) (Sub t (w_start w))).

(** [wrapFile]: the wrapper, or the error of [Stat]. *)
Definition wrapFile (f : File) : M (fileWrapper + error) :=
  r <- os_Stat f ;;
  match r with
  | inr err => ret (inr err)
  | inl size =>
      t <- now_seconds ;;
      ret (inl (mkFileWrapper (float64_div (float64_of_int size) f100) f t 0))
  end.

Definition fileWrapper_readStatus (w : fileWrapper) : M (fileWrapper * Status) :=
  if negb (w_elapsed w =? 0) then
    ret (w, Sprintf fmt_done [ArgDuration (w_elapsed w); ArgFloat f100])
  else
    r <- os_Seek (w_f w) ;;
    match r with
    | inr _ =>
        t <- now_seconds ;;
        let w := mkFileWrapper (w_sz w) (w_f w) (w_start w) (Sub t (w_start w)) in
        ret (w, Sprintf fmt_done [ArgDuration (w_elapsed w); ArgFloat f100])
    | inl pos =>
        t <- now_seconds ;;
        ret (w, Sprintf fmt_done
                  [ArgDuration (Sub t (w_start w));
                   ArgFloat (float64_div (float64_of_int pos) (w_sz w))])
    end.

#[export] Instance fileWrapper_view : readStatusInterface fileWrapper := {
  readStatus := fileWrapper_readStatus;
  done := fileWrapper_done
}.

(** ** The registry: readInfo and Viz

    A [View] holds a pointer to a spinner or to a fileWrapper. Each pointer
    is made by [Add] for one entry and stored nowhere else, so the entry
    owns its view and the view is kept in the entry by value: a method that
    mutates through the pointer returns the new view, and the caller stores
    it back. *)

Inductive View : Type :=
| VSpinner (s : spinner)
| VFile (w : fileWrapper).

Definition View_readStatus (v : View) : M (View * Status) :=
  match v with
  | VSpinner s => r <- readStatus s ;; ret (VSpinner (fst r), snd r)
  | VFile w => r <- readStatus w ;; ret (VFile (fst r), snd r)
  end.

Definition View_done (v : View) : M View :=
  match v with
  | VSpinner s => s' <- done s ;; ret (VSpinner s')
  | VFile w => w' <- done w ;; ret (VFile w')
  end.

#[export] Instance View_view : readStatusInterface View := {
  readStatus := View_readStatus;
  done := View_done
}.

Record readInfo : Type := mkReadInfo {
  Name  : string;
  view  : View;
  Error : option error
}.

(** The [*sync.Mutex] of a Viz is nil until [Start] allocates it. The lock
    serialises the operations; one operation is one step of the model. *)
Inductive Mutex : Type := mkMutex.

Record Viz : Type := mkViz {
  mu       : option Mutex;
  readers  : list readInfo;
  interval : Duration;
  started  : Time
}.

(** The zero value [&parprog.Viz{}]. *)
Definition zeroViz : Viz := mkViz None [] 0 0.

Definition set_readers (v : Viz) (rs : list readInfo) : Viz :=
  mkViz (mu v) rs (interval v) (started v).

(** [v.mu.Lock()]: a nil mutex is a nil dereference. *)
Definition Lock (v : Viz) : M unit :=
  match mu v with
  | Some _ => ret tt
  | None => throw NilDereference
  end.

(** Slices of the entry sequence. The bounds used by the package never
    exceed the length, so the capacity behind a slice is not observable. *)
Definition length_Z {A} (l : list A) : Z := Z.of_nat (List.length l).

(** [l[i]] *)
Definition at_index {A} (l : list A) (i : Z) : M A :=
  if (0 <=? i) && (i <? length_Z l) then
    match nth_error l (Z.to_nat i) with
    | Some x => ret x
    | None => throw (IndexOutOfRange i)
    end
  else throw (IndexOutOfRange i).

(** [l[:hi]] *)
Definition slice_to {A} (l : list A) (hi : Z) : M (list A) :=
  if (0 <=? hi) && (hi <=? length_Z l) then ret (firstn (Z.to_nat hi) l)
  else throw (SliceBoundsOutOfRange hi).

(** [l[lo:]] *)
Definition slice_from {A} (l : list A) (lo : Z) : M (list A) :=
  if (0 <=? lo) && (lo <=? length_Z l) then ret (skipn (Z.to_nat lo) l)
  else throw (SliceBoundsOutOfRange lo).

(** [l[i] = x], and the write through the view pointer of [l[i]]. *)
Fixpoint update {A} (l : list A) (i : nat) (x : A) : list A :=
  match l, i with
  | [], _ => []
  | _ :: l', O => x :: l'
  | y :: l', S i' => y :: update l' i' x
  end.

Definition termbox_Size : M (Z * Z) :=
  fun w => Ok (env_size env (tick w), emit EvSize w).

Definition termbox (e : Event) : M unit :=
  fun w => Ok (tt, emit e w).

(** [Start]: the mutex is allocated and the start time taken. The two
    goroutines it launches (the key watcher and the ticker that redraws)
    and the set-up of the terminal are left to the surroundings. *)
Definition Start (refreshInterval : Duration) (v : Viz) : M Viz :=
  t <- now_seconds ;;
  ret (mkViz (Some mkMutex) (readers v) refreshInterval t).

(** The rows of [redrawLocked]: [n] iterations of the loop body, entered
    with row [y] and index [ri]. *)
Fixpoint redraw_rows (n : nat) (width y ri : Z) (rs : list readInfo)
  : M (list readInfo) :=
  match n with
  | O => ret rs
  | S n' =>
      let ri := ri - 1 in
      r <- at_index rs ri ;;
      let es := match Error r with Some e => e | None => "" end in
      vs <- readStatus (view r) ;;
      termbox (EvRow width y (snd vs) (Name r) es) ;;;
      redraw_rows n' width (y + 1) ri
        (update rs (Z.to_nat ri) (mkReadInfo (Name r) (fst vs) (Error r)))
  end.

Definition redrawLocked (v : Viz) : M Viz :=
  wh <- termbox_Size ;;
  termbox EvClear ;;;
  let ri := length_Z (readers v) in
  let ymax := length_Z (readers v) + 1 in
  let ymax := if ymax >? snd wh then snd wh else ymax in
  t <- now_seconds ;;
  termbox (EvHeader (fst wh) (Sub t (started v))) ;;;
  rs <- redraw_rows (Z.to_nat (ymax - 1)) (fst wh) 1 ri (readers v) ;;
  termbox EvFlush ;;;
  ret (set_readers v rs).

(** The dynamic type of the [rdr] argument of [Add]. *)
Inductive reader : Type :=
| GzipReader
| OsFile (f : File)
| OtherValue.

Definition gzipError : error := "cannot inspect gzip.Reader, use wrapped Reader".

(** The type switch of [Add], which fills in the entry. *)
Definition Add_switch (name : string) (rdr : reader) : M readInfo :=
  match rdr with
  | GzipReader =>
      s <- newSpinner ;;
      ret (mkReadInfo name (VSpinner s) (Some gzipError))
  | OsFile x =>
      r <- wrapFile x ;;
      match r with
      | inl w => ret (mkReadInfo name (VFile w) None)
      | inr err =>
          s <- newSpinner ;;
          ret (mkReadInfo name (VSpinner s) (Some err))
      end
  | OtherValue =>
      s <- newSpinner ;;
      ret (mkReadInfo name (VSpinner s) None)
  end.

Definition Add (name : string) (rdr : reader) (v : Viz) : M Viz :=
  info <- Add_switch name rdr ;;
  Lock v ;;;
  redrawLocked (set_readers v (readers v ++ [info])%list).

(** The loop of [Complete] over the entries from index [i] on. *)
Fixpoint Complete_loop (name : string) (err : option error)
    (rs : list readInfo) (i : Z) (rest : list readInfo) : M (list readInfo) :=
  match rest with
  | [] => ret rs
  | x :: rest' =>
      if String.eqb (Name x) name then
        vw <- done (view x) ;;
        ret (update rs (Z.to_nat i) (mkReadInfo (Name x) vw err))
      else Complete_loop name err rs (i + 1) rest'
  end.

Definition Complete (name : string) (err : option error) (v : Viz) : M Viz :=
  Lock v ;;;
  rs <- Complete_loop name err (readers v) 0 (readers v) ;;
  ret (set_readers v rs).

(** The loop of [Remove] over the entries from index [i] on. *)
Fixpoint Remove_loop (name : string)
    (rs : list readInfo) (i : Z) (rest : list readInfo) : M (list readInfo) :=
  match rest with
  | [] => ret rs
  | x :: rest' =>
      if String.eqb (Name x) name then
        if i =? length_Z rs - 1 then slice_to rs (i - 1)
        else
          rr <- slice_from rs (i + 1) ;;
          hd <- slice_to rs i ;;
          ret (hd ++ rr)%list
      else Remove_loop name rs (i + 1) rest'
  end.

Definition Remove (name : string) (v : Viz) : M Viz :=
  Lock v ;;;
  rs <- Remove_loop name (readers v) 0 (readers v) ;;
  ret (set_readers v rs).

End Program.

(** ** BoundedExec

    The dispatcher runs one main goroutine and the workers it spawns. Its
    executions are the interleavings of their steps: a schedule names the
    goroutine that moves next, and a goroutine that is blocked (a send on a
    full queue, a receive on an empty open queue, [wg.Wait()] on a non-zero
    counter) has no step. [nameFunc] is the caller's: a call of it is the
    pair of its begin and its return. *)

(** Where a worker goroutine stands: at the receive of its loop, inside
    [nameFunc(name)], or returned (after the deferred [wg.Done()]). *)
Inductive goroutine : Type :=
| Receiving
| Calling (name : string)
| Exited.

(** Where the main goroutine stands: at the head of the spawning loop with
    counter [i], at the head of the sending loop with the names still to be
    sent, at [wg.Wait()], or returned. *)
Inductive pc_main : Type :=
| Spawning (i : Z)
| Sending (rest : list string)
| Waiting
| Returned.

Record exec : Type := mkExec {
  pc     : pc_main;
  cap    : Z;             (* capacity of boundedChan *)
  buf    : list string;   (* its buffer, oldest first *)
  closed : bool;
  wg     : Z;             (* counter of the WaitGroup *)
  pool   : list goroutine;
  began  : list string;   (* calls of nameFunc entered, in order *)
  ended  : list string    (* calls of nameFunc returned, in order *)
}.

(** Who moves: the main goroutine; the main goroutine handing its value
    directly to worker [k] blocked in the receive; worker [k]. *)
Inductive label : Type :=
| Main
| Handoff (k : nat)
| Worker (k : nat).

Section BoundedExec.

Variable n : Z.
Variable names : list string.

(** The code before the first loop: [make(chan string, n)] panics on a
    negative size. *)
Definition BoundedExec_init : result exec :=
  if n <? 0 then Panic (MakeChanSizeOutOfRange n)
  else Ok (mkExec (Spawning 0) n [] false 0 [] [] []).

Definition step_main (s : exec) : option exec :=
  match pc s with
  | Spawning i =>
      if i <? n then
        Some (mkExec (Spawning (i + 1)) (cap s) (buf s) (closed s) (wg s + 1)
                     (pool s ++ [Receiving]) (began s) (ended s))
      else
        Some (mkExec (Sending names) (cap s) (buf s) (closed s) (wg s)
                     (pool s) (began s) (ended s))
  | Sending (x :: rest) =>
      if length_Z (buf s) <? cap s then
        Some (mkExec (Sending rest) (cap s) (buf s ++ [x]) (closed s) (wg s)
                     (pool s) (began s) (ended s))
      else None
  | Sending [] =>
      Some (mkExec Waiting (cap s) (buf s) true (wg s)
                   (pool s) (began s) (ended s))
  | Waiting =>
      if wg s =? 0 then
        Some (mkExec Returned (cap s) (buf s) (closed s) (wg s)
                     (pool s) (began s) (ended s))
      else None
  | Returned => None
  end.

Definition step_handoff (k : nat) (s : exec) : option exec :=
  match pc s, buf s, nth_error (pool s) k with
  | Sending (x :: rest), [], Some Receiving =>
      Some (mkExec (Sending rest) (cap s) [] (closed s) (wg s)
                   (update (pool s) k (Calling x)) (began s ++ [x]) (ended s))
  | _, _, _ => None
  end.

Definition step_worker (k : nat) (s : exec) : option exec :=
  match nth_error (pool s) k with
  | Some Receiving =>
      match buf s with
      | x :: b =>
          Some (mkExec (pc s) (cap s) b (closed s) (wg s)
                       (update (pool s) k (Calling x)) (began s ++ [x]) (ended s))
      | [] =>
          if closed s then
            Some (mkExec (pc s) (cap s) [] (closed s) (wg s - 1)
                         (update (pool s) k Exited) (began s) (ended s))
          else None
      end
  | Some (Calling x) =>
      Some (mkExec (pc s) (cap s) (buf s) (closed s) (wg s)
                   (update (pool s) k Receiving) (began s) (ended s ++ [x]))
  | Some Exited | None => None
  end.

Definition step (l : label) (s : exec) : option exec :=
  match l with
  | Main => step_main s
  | Handoff k => step_handoff k s
  | Worker k => step_worker k s
  end.

(** The state after a schedule, when every goroutine it names could move. *)
Fixpoint run (sched : list label) (s : exec) : option exec :=
  match sched with
  | [] => Some s
  | l :: sched' =>
      match step l s with
      | Some s' => run sched' s'
      | None => None
      end
  end.

(** The number of calls of [nameFunc] in progress. *)
Definition active (s : exec) : Z :=
  length_Z (filter (fun g => match g with Calling _ => true | _ => false end) (pool s)).

End BoundedExec.

(** ** The goroutines of Start, and Stop

    [Start] launches the key watcher and [run]; [Stop] and the key watcher
    send on the unbuffered channel [v.quit], [run] receives from it. What a
    goroutine receives (terminal events for the watcher, the cases its
    [select] takes for [run]) is given as a list, in the order received;
    at the end of the list the goroutine is blocked waiting. *)

(** The types of terminal events of termbox, and an event with the two
    fields the watcher reads. *)
Inductive EventType : Type :=
| EventKey | EventResize | EventMouse | EventError
| EventInterrupt | EventRaw | EventNone.

Record termbox_Event : Type := mkEvent {
  ev_Type : EventType;
  ev_Key  : Z
}.

(** The key code of Ctrl-C in termbox. *)
Definition KeyCtrlC : Z := 3.

(** How a goroutine of [Start] ends, as far as the list of what it
    receives goes. *)
Inductive watcher_end : Type :=
| Polling                (* blocked in termbox.PollEvent() *)
| WatcherReturned        (* returned on the interrupt event *)
| SentQuit (q : Z).      (* sent q on v.quit, then returned *)

(** The key watcher: the anonymous goroutine of [Start]. *)
Fixpoint watch_keys (evs : list termbox_Event) : watcher_end :=
  match evs with
  | [] => Polling
  | ev :: evs' =>
      match ev_Type ev with
      | EventInterrupt => WatcherReturned
      | _ => if ev_Key ev =? KeyCtrlC then SentQuit 1 else watch_keys evs'
      end
  end.

(** What [Stop] sends on [v.quit], before it sleeps for [v.interval]. *)
Definition Stop (v : Viz) : Z * Duration := (0, interval v).

(** The case a [select] of [run] takes: a value from [v.quit], or a tick. *)
Inductive selected : Type :=
| Quit (q : Z)
| Tick.

(** The calls [run] makes on its way out. *)
Inductive shutdown_call : Type :=
| TickerStop
| termbox_Interrupt
| termbox_Close
| os_Exit (code : Z).

Inductive run_end : Type :=
| TickerPanic            (* time.NewTicker panicked: non-positive interval *)
| Selecting              (* blocked in the select *)
| RunReturned
| ProcessExited (code : Z).

(** The loop of [run]. *)
Fixpoint run_loop (env : Env) (sel : list selected) (v : Viz)
  : M (Viz * list shutdown_call * run_end) :=
  match sel with
  | [] => ret (v, [], Selecting)
  | Quit q :: _ =>
      ret (v,
           ([TickerStop]
            ++ (if q =? 0 then [termbox_Interrupt] else [])
            ++ [termbox_Close]
            ++ (if negb (q =? 0) then [os_Exit q] else []))%list,
           if negb (q =? 0) then ProcessExited q else RunReturned)
  | Tick :: sel' =>
      Lock v ;;;
      v' <- redrawLocked env v ;;
      run_loop env sel' v'
  end.

(** [run]: [time.NewTicker] panics on a non-positive interval. *)
Definition Viz_run (env : Env) (sel : list selected) (v : Viz)
  : M (Viz * list shutdown_call * run_end) :=
  if interval v <=? 0 then ret (v, [], TickerPanic)
  else run_loop env sel v.

(** ** Observations used in the statements *)

(** The status of a finished source: the frozen elapsed time and 100%. *)
Definition terminal (elapsed : Duration) : Status :=
  Sprintf fmt_done [ArgDuration elapsed; ArgFloat f100].

Definition is_terminal (st : Status) : bool :=
  match st with
  | Sprintf "%s %6.2f%%" [ArgDuration d; ArgFloat (S754_finite false 7036874417766400 (-46))] =>
      negb (d =? 0)
  | _ => false
  end.

(** The symbol a spinner status shows. *)
Definition symbol (st : Status) : option ascii :=
  match args st with
  | [_; ArgChar c] => Some c
  | _ => None
  end.

(** The percentage a status shows. *)
Definition percent (st : Status) : option float64 :=
  match args st with
  | [_; ArgFloat x] => Some x
  | _ => None
  end.

(** The byte of the wheel at an index within it. *)
Definition wheel (i : Z) : ascii :=
  match String.get (Z.to_nat i) Wheel with
  | Some c => c
  | None => " "%char
  end.

(** [k] status queries in a row on one spinner. *)
Fixpoint spinner_poll (env : Env) (k : nat) (s : spinner) : M (spinner * list Status) :=
  match k with
  | O => ret (s, [])
  | S k' =>
      r <- spinner_readStatus env s ;;
      p <- spinner_poll env k' (fst r) ;;
      ret (fst p, snd r :: snd p)
  end.

(** A view is done when its elapsed time is set. *)
Definition elapsed_of (v : View) : Duration :=
  match v with
  | VSpinner s => s_elapsed s
  | VFile w => w_elapsed w
  end.

Inductive kind : Type := Spinner | OffsetTracker.

Definition kind_of (v : View) : kind :=
  match v with
  | VSpinner _ => Spinner
  | VFile _ => OffsetTracker
  end.

(** The cycle index of every spinner made by [newSpinner] and moved by
    [readStatus] stays within the wheel. *)
Definition wf_view (v : View) : Prop :=
  match v with
  | VSpinner s => 0 <= s_w s < len Wheel
  | VFile _ => True
  end.

Definition wf_readers (rs : list readInfo) : Prop :=
  Forall (fun r => wf_view (view r)) rs.

(** What a redraw keeps of an entry: its name, its error and the variant
    of its view; the view stays well formed. *)
Definition same_entry (r r' : readInfo) : Prop :=
  Name r' = Name r /\ Error r' = Error r /\
  kind_of (view r') = kind_of (view r) /\ wf_view (view r').

(** *** Observations on the registry *)

Definition start_of (v : View) : Time :=
  match v with
  | VSpinner s => s_start s
  | VFile w => w_start w
  end.

(** What a row shows of an entry besides its status: the name and the
    text of the error. *)
Definition row_key (r : readInfo) : string * string :=
  (Name r, match Error r with Some e => e | None => "" end).

(** The rows painted in a stretch of the trace: row number, name, error. *)
Definition rows_of (tr : list Event) : list (Z * (string * string)) :=
  flat_map (fun e => match e with
                     | EvRow _ y _ name es => [(y, (name, es))]
                     | _ => []
                     end) tr.

(** The number of [termbox.Flush()] in a stretch of the trace. *)
Definition flushes (tr : list Event) : nat :=
  List.length (filter (fun e => match e with EvFlush => true | _ => false end) tr).

(** The rows numbered from [y] on. *)
Fixpoint numbered {A} (y : Z) (l : list A) : list (Z * A) :=
  match l with
  | [] => []
  | x :: l' => (y, x) :: numbered (y + 1) l'
  end.

(** The number of rows a redraw paints on a terminal of [h] rows. *)
Definition rows_drawn (h : Z) (rs : list readInfo) : nat :=
  Z.to_nat ((if length_Z rs + 1 >? h then h else length_Z rs + 1) - 1).

(** What a redraw does to an entry: name, error and variant stay, and an
    entry that is done stays as it is. *)
Definition redrawn (r r' : readInfo) : Prop :=
  same_entry r r' /\ (elapsed_of (view r) <> 0 -> r' = r).

(** Calls of the registry in a row. *)
Inductive call : Type :=
| CallAdd (name : string) (rdr : reader)
| CallComplete (name : string) (err : option error)
| CallRemove (name : string).

Definition do_call (env : Env) (c : call) (v : Viz) : M Viz :=
  match c with
  | CallAdd name rdr => Add env name rdr v
  | CallComplete name err => Complete env name err v
  | CallRemove name => Remove name v
  end.

Fixpoint do_calls (env : Env) (cs : list call) (v : Viz) : M Viz :=
  match cs with
  | [] => ret v
  | c :: cs' => v' <- do_call env c v ;; do_calls env cs' v'
  end.

Definition added (cs : list call) : list string :=
  flat_map (fun c => match c with CallAdd name _ => [name] | _ => [] end) cs.

Definition is_remove (c : call) : bool :=
  match c with CallRemove _ => true | _ => false end.

(** *** Observations on an execution of BoundedExec *)

(** The names the main goroutine has still to send. *)
Definition remaining (names : list string) (p : pc_main) : list string :=
  match p with
  | Spawning _ => names
  | Sending rest => rest
  | Waiting | Returned => []
  end.

(** The names whose call of [nameFunc] is in progress. *)
Definition calling (pool : list goroutine) : list string :=
  flat_map (fun g => match g with Calling x => [x] | _ => [] end) pool.

(** The number of workers that have not returned. *)
Definition live (pool : list goroutine) : Z :=
  length_Z (filter (fun g => match g with Exited => false | _ => true end) pool).

(** What holds in every state of an execution with [n] workers over
    [names]. *)
Record Inv (n : Z) (names : list string) (s : exec) : Prop := mkInv {
  inv_cap : cap s = n;
  inv_pool :
    match pc s with
    | Spawning i => 0 <= i <= n /\ length_Z (pool s) = i
    | _ => length_Z (pool s) = n
    end;
  inv_wg : wg s = live (pool s);
  inv_items : Permutation (began s ++ buf s ++ remaining names (pc s)) names;
  inv_calls : Permutation (ended s ++ calling (pool s)) (began s);
  inv_closed :
    closed s = match pc s with Waiting | Returned => true | _ => false end;
  inv_exit : In Exited (pool s) -> buf s = [] /\ closed s = true;
  inv_buf : length_Z (buf s) <= n;
  inv_returned : pc s = Returned -> wg s = 0
}.

(** The number of steps an execution has left at most. *)
Definition weight_goroutine (g : goroutine) : nat :=
  match g with
  | Receiving => 1
  | Calling _ => 2
  | Exited => 0
  end.

Definition weight_pc (n : Z) (names : list string) (p : pc_main) : nat :=
  match p with
  | Spawning i => 2 * Z.to_nat (n - i) + 3 * List.length names + 3
  | Sending rest => 3 * List.length rest + 2
  | Waiting => 1
  | Returned => 0
  end.

Definition measure (n : Z) (names : list string) (s : exec) : nat :=
  weight_pc n names (pc s) + 2 * List.length (buf s)
  + list_sum (map weight_goroutine (pool s)).

(** Surroundings used to run the program on concrete inputs. In
    [quick_env] one nanosecond passes per call, [Stat] reports 1000 bytes and
    [Seek] position 500, on a terminal of 80 columns and 24 rows. *)
Definition quick_env : Env :=
  mkEnv (fun i => 5000000000 + Z.of_nat i)
        (fun _ _ => inl 1000) (fun _ _ => inl 500) (fun _ => (80, 24)).

(** As [quick_env], with a [Seek] that fails during the first three calls. *)
Definition flaky_env : Env :=
  mkEnv (fun i => 5000000000 + Z.of_nat i)
        (fun _ _ => inl 1000)
        (fun _ i => if (i <? 3)%nat then inr "file already closed" else inl 500)
        (fun _ => (80, 24)).

(** A [Seek] that always fails, while 0.3 seconds pass per call. *)
Definition broken_env : Env :=
  mkEnv (fun i => 5000000000 + Z.of_nat i * 300000000)
        (fun _ _ => inl 1000)
        (fun _ _ => inr "file already closed")
        (fun _ => (80, 24)).

(** As [quick_env], with the position at the end of the file. *)
Definition whole_env : Env :=
  mkEnv (fun i => 5000000000 + Z.of_nat i)
        (fun _ _ => inl 1000) (fun _ _ => inl 1000) (fun _ => (80, 24)).

(** As [quick_env], over an empty file. *)
Definition empty_env : Env :=
  mkEnv (fun i => 5000000000 + Z.of_nat i)
        (fun _ _ => inl 0) (fun _ _ => inl 0) (fun _ => (80, 24)).

Definition world0 : World := mkWorld 0 [].

(** Ten names for three workers, and a schedule that keeps the three busy:
    the queue is filled, each worker takes a name, and whenever the three
    calls have returned the next three names are taken. *)
Definition ten_names : list string :=
  ["f0"; "f1"; "f2"; "f3"; "f4"; "f5"; "f6"; "f7"; "f8"; "f9"].

Definition three_busy : list label :=
  let spawn := [Main; Main; Main; Main] in
  let fill := [Main; Main; Main] in
  let take := [Worker 0; Worker 1; Worker 2]%nat in
  let turn := [Worker 0; Worker 0; Worker 1; Worker 1; Worker 2; Worker 2]%nat in
  (spawn ++ fill ++ take ++ fill ++ turn ++ fill ++ turn
   ++ [Main; Main] ++ [Worker 0; Worker 0; Worker 1; Worker 2; Worker 0]%nat
   ++ take ++ [Main])%list.

(** * Properties *)

(** ** Time and the monad *)

Lemma f100_eq : f100 = float64_of_int 100.
Proof. reflexivity. Qed.

Lemma bind_Ok {A B} (m : M A) (k : A -> M B) w a w' :
  m w = Ok (a, w') -> bind m k w = k a w'.
Proof. intros H. unfold bind. now rewrite H. Qed.

Lemma now_seconds_eq env w :
  now_seconds env w = Ok (Truncate (env_now env (tick w)) Second, emit EvNow w).
Proof. reflexivity. Qed.

Lemma Truncate_Second_le t : Truncate t Second <= t.
Proof.
  unfold Truncate, Second. simpl.
  pose proof (Z.mod_pos_bound t 1000000000). lia.
Qed.

Lemma Sub_zero_iff t u : Sub t u = 0 <-> t = u.
Proof. unfold Sub, minInt64, maxInt64. lia. Qed.

(** ** status.go: the spinner *)

Lemma len_Wheel : len Wheel = 4.
Proof. reflexivity. Qed.

Lemma wheel_inj i j :
  0 <= i < 4 -> 0 <= j < 4 -> wheel i = wheel j -> i = j.
Proof.
  intros Hi Hj.
  assert (Ei : i = 0 \/ i = 1 \/ i = 2 \/ i = 3) by lia.
  assert (Ej : j = 0 \/ j = 1 \/ j = 2 \/ j = 3) by lia.
  destruct Ei as [-> | [-> | [-> | ->]]], Ej as [-> | [-> | [-> | ->]]];
    cbv; intros H; try reflexivity; discriminate H.
Qed.

(** One query of a spinner that is not done: the index moves one step round
    the wheel and the symbol at the new index is shown. *)
Lemma spinner_readStatus_live env s w :
  s_elapsed s = 0 -> 0 <= s_w s < 4 ->
  spinner_readStatus env s w =
    Ok (mkSpinner ((s_w s + 1) mod 4) (s_start s) 0,
        Sprintf fmt_spin
          [ArgDuration (Sub (Truncate (env_now env (tick w)) Second) (s_start s));
           ArgChar (wheel ((s_w s + 1) mod 4))],
        emit EvNow w).
Proof.
  destruct s as [i st el]; simpl. intros -> Hi.
  assert (Ei : i = 0 \/ i = 1 \/ i = 2 \/ i = 3) by lia.
  destruct Ei as [-> | [-> | [-> | ->]]]; reflexivity.
Qed.

(** A spinner that is done answers with its frozen elapsed time and asks
    nothing of its surroundings. *)
Lemma spinner_readStatus_done env s w :
  s_elapsed s <> 0 ->
  spinner_readStatus env s w = Ok (s, terminal (s_elapsed s), w).
Proof.
  intros H. unfold spinner_readStatus.
  destruct (Z.eqb_spec (s_elapsed s) 0) as [E | _]; [contradiction | reflexivity].
Qed.

(** [done] on a spinner: the elapsed time is now - start, and one second
    when that is zero, so it is never zero. *)
Lemma spinner_done_eq env s w :
  spinner_done env s w =
    Ok (mkSpinner (s_w s) (s_start s)
          (let d := Sub (Truncate (env_now env (tick w)) Second) (s_start s) in
           if d =? 0 then Second else d),
        emit EvNow w).
Proof.
  unfold spinner_done, bind. rewrite now_seconds_eq. simpl.
  destruct (Z.eqb_spec (Sub (Truncate (env_now env (tick w)) Second) (s_start s)) 0);
    reflexivity.
Qed.

Lemma spinner_done_nonzero env s w s' w' :
  spinner_done env s w = Ok (s', w') -> s_elapsed s' <> 0.
Proof.
  rewrite spinner_done_eq. intros H. injection H as <- _. simpl.
  destruct (Z.eqb_spec (Sub (Truncate (env_now env (tick w)) Second) (s_start s)) 0) as [E | E];
    [discriminate | exact E].
Qed.

(** [k] queries of a spinner that is not done: all succeed, the spinner
    stays not done, and the [i]-th query shows the wheel [i + 1] steps on. *)
Lemma spinner_poll_spec env k : forall s w,
  s_elapsed s = 0 -> 0 <= s_w s < 4 ->
  exists s' sts w',
    spinner_poll env k s w = Ok (s', sts, w') /\
    s_elapsed s' = 0 /\
    s_w s' = (s_w s + Z.of_nat k) mod 4 /\
    List.length sts = k /\
    forall i, (i < k)%nat ->
      nth_error (map symbol sts) i = Some (Some (wheel ((s_w s + 1 + Z.of_nat i) mod 4))).
Proof.
  induction k as [| k IH]; intros s w Hel Hw.
  - exists s, [], w. split; [reflexivity |]. split; [exact Hel |].
    split; [| split; [reflexivity |]].
    + simpl Z.of_nat. rewrite Z.add_0_r, Z.mod_small; lia.
    + intros i Hi. lia.
  - cbn [spinner_poll].
    pose proof (spinner_readStatus_live env s w Hel Hw) as Hstep.
    rewrite (bind_Ok _ _ _ _ _ Hstep). cbn [fst snd].
    set (s1 := mkSpinner ((s_w s + 1) mod 4) (s_start s) 0).
    assert (H1 : 0 <= s_w s1 < 4) by (simpl; apply Z.mod_pos_bound; lia).
    destruct (IH s1 (emit EvNow w) eq_refl H1) as (s' & sts & w' & Hrun & Hel' & Hw' & Hlen & Hnth).
    rewrite (bind_Ok _ _ _ _ _ Hrun). cbn [fst snd].
    eexists _, _, _. split; [reflexivity |].
    split; [exact Hel' |]. split; [| split].
    + rewrite Hw'. simpl s_w. rewrite Zplus_mod_idemp_l. f_equal. lia.
    + simpl. now rewrite Hlen.
    + intros [| i] Hi.
      * simpl. now rewrite Z.add_0_r.
      * cbn [map nth_error]. rewrite Hnth by lia. simpl s_w.
        replace ((s_w s + 1) mod 4 + 1 + Z.of_nat i)
          with ((s_w s + 1) mod 4 + (1 + Z.of_nat i)) by lia.
        rewrite Zplus_mod_idemp_l.
        replace (s_w s + 1 + Z.of_nat (S i)) with (s_w s + 1 + (1 + Z.of_nat i)) by lia.
        reflexivity.
Qed.

(** C7. While a spinner is not done every status query moves its cycle
    index one step modulo the size of the wheel, which is 4; two queries
    show the same symbol exactly when their ranks agree modulo 4, so the
    symbols run through 4 distinct values with period exactly 4. *)
Theorem spinner_cycle_period (env : Env) (k : nat) (s : spinner) (w : World) :
  s_elapsed s = 0 -> 0 <= s_w s < len Wheel ->
  exists s' sts w',
    spinner_poll env k s w = Ok (s', sts, w') /\
    s_elapsed s' = 0 /\
    s_w s' = (s_w s + Z.of_nat k) mod len Wheel /\
    List.length sts = k /\
    (forall i, (i < k)%nat ->
       nth_error (map symbol sts) i =
         Some (String.get (Z.to_nat ((s_w s + 1 + Z.of_nat i) mod len Wheel)) Wheel)) /\
    (forall i j, (i < k)%nat -> (j < k)%nat ->
       (nth_error (map symbol sts) i = nth_error (map symbol sts) j <->
        Z.of_nat i mod 4 = Z.of_nat j mod 4)).
Proof.
  rewrite len_Wheel. intros Hel Hw.
  destruct (spinner_poll_spec env k s w Hel Hw) as (s' & sts & w' & Hrun & Hel' & Hw' & Hlen & Hnth).
  assert (Hget : forall z, 0 <= z < 4 -> String.get (Z.to_nat z) Wheel = Some (wheel z)).
  { intros z Hz. assert (Ez : z = 0 \/ z = 1 \/ z = 2 \/ z = 3) by lia.
    destruct Ez as [-> | [-> | [-> | ->]]]; reflexivity. }
  exists s', sts, w'. repeat split; auto.
  - intros i Hi. rewrite Hnth by assumption. f_equal. symmetry. apply Hget.
    apply Z.mod_pos_bound. lia.
  - rewrite !Hnth by assumption. intros E. injection E as E.
    apply wheel_inj in E; try (apply Z.mod_pos_bound; lia).
    assert (E' : (s_w s + 1 + Z.of_nat i - (s_w s + 1)) mod 4 =
                 (s_w s + 1 + Z.of_nat j - (s_w s + 1)) mod 4).
    { rewrite (Zminus_mod (s_w s + 1 + Z.of_nat i)), (Zminus_mod (s_w s + 1 + Z.of_nat j)).
      now rewrite E. }
    replace (s_w s + 1 + Z.of_nat i - (s_w s + 1)) with (Z.of_nat i) in E' by lia.
    replace (s_w s + 1 + Z.of_nat j - (s_w s + 1)) with (Z.of_nat j) in E' by lia.
    exact E'.
  - intros E. rewrite !Hnth by assumption. do 3 f_equal.
    rewrite (Zplus_mod (s_w s + 1) (Z.of_nat i)), (Zplus_mod (s_w s + 1) (Z.of_nat j)).
    now rewrite E.
Qed.

Lemma spinner_cycle_period_witness :
  exists s' sts w',
    spinner_poll (mkEnv (fun _ => 0) (fun _ _ => inl 0) (fun _ _ => inl 0) (fun _ => (0, 0)))
                 6 (mkSpinner 0 0 0) (mkWorld 0 []) = Ok (s', sts, w') /\
    s_elapsed s' = 0 /\
    s_w s' = (0 + Z.of_nat 6) mod len Wheel /\
    List.length sts = 6%nat /\
    (forall i, (i < 6)%nat ->
       nth_error (map symbol sts) i =
         Some (String.get (Z.to_nat ((0 + 1 + Z.of_nat i) mod len Wheel)) Wheel)) /\
    (forall i j, (i < 6)%nat -> (j < 6)%nat ->
       (nth_error (map symbol sts) i = nth_error (map symbol sts) j <->
        Z.of_nat i mod 4 = Z.of_nat j mod 4)).
Proof.
  apply (spinner_cycle_period
           (mkEnv (fun _ => 0) (fun _ _ => inl 0) (fun _ _ => inl 0) (fun _ => (0, 0)))
           6 (mkSpinner 0 0 0) (mkWorld 0 [])).
  - reflexivity.
  - simpl. rewrite len_Wheel. lia.
Defined.

(** ** status.go: the fileWrapper *)

Lemma fileWrapper_done_eq env fw w :
  fileWrapper_done env fw w =
    Ok (mkFileWrapper (w_sz fw) (w_f fw) (w_start fw)
          (Sub (Truncate (env_now env (tick w)) Second) (w_start fw)),
        emit EvNow w).
Proof. reflexivity. Qed.

(** [done] in the second the wrapper was made in leaves the elapsed time at
    zero: a fileWrapper has no clamp. *)
Lemma fileWrapper_done_same_second env fw w fw' w' :
  Truncate (env_now env (tick w)) Second = w_start fw ->
  fileWrapper_done env fw w = Ok (fw', w') -> w_elapsed fw' = 0.
Proof.
  intros Hnow. rewrite fileWrapper_done_eq. intros H. injection H as <- _.
  simpl. now apply Sub_zero_iff.
Qed.

Lemma wrapFile_ok env fd size w :
  env_stat env fd (tick w) = inl size ->
  wrapFile env (Some fd) w =
    Ok (inl (mkFileWrapper (float64_div (float64_of_int size) f100) (Some fd)
               (Truncate (env_now env (S (tick w))) Second) 0),
        emit EvNow (emit (EvStat (Some fd)) w)).
Proof. intros H. unfold wrapFile, bind, os_Stat. now rewrite H. Qed.

Lemma wrapFile_error env fd err w :
  env_stat env fd (tick w) = inr err ->
  wrapFile env (Some fd) w = Ok (inr err, emit (EvStat (Some fd)) w).
Proof. intros H. unfold wrapFile, bind, os_Stat. now rewrite H. Qed.

Lemma wrapFile_nil env w :
  wrapFile env None w = Ok (inr ErrInvalid, emit (EvStat None) w).
Proof. reflexivity. Qed.

(** A wrapper that is done answers with its frozen elapsed time and 100%
    and does not read the position. *)
Lemma fileWrapper_readStatus_done env fw w :
  w_elapsed fw <> 0 ->
  fileWrapper_readStatus env fw w = Ok (fw, terminal (w_elapsed fw), w).
Proof.
  intros H. unfold fileWrapper_readStatus.
  destruct (Z.eqb_spec (w_elapsed fw) 0) as [E | _]; [contradiction | reflexivity].
Qed.

(** A position read that succeeds: elapsed time since the start and the
    position divided by a hundredth of the size. *)
Lemma fileWrapper_readStatus_position env fw fd pos w :
  w_elapsed fw = 0 -> w_f fw = Some fd ->
  env_seek env fd (tick w) = inl pos ->
  fileWrapper_readStatus env fw w =
    Ok (fw,
        Sprintf fmt_done
          [ArgDuration (Sub (Truncate (env_now env (S (tick w))) Second) (w_start fw));
           ArgFloat (float64_div (float64_of_int pos) (w_sz fw))],
        emit EvNow (emit (EvSeek (Some fd)) w)).
Proof.
  intros Hel Hf Hseek. unfold fileWrapper_readStatus, bind, os_Seek.
  rewrite Hel, Hf. change (negb (0 =? 0)) with false. cbn beta iota.
  rewrite Hseek. reflexivity.
Qed.

(** A position read that fails: the elapsed time is recorded, the answer
    is that time and 100%, and the error goes nowhere. *)
Lemma fileWrapper_readStatus_failure env fw fd err w :
  w_elapsed fw = 0 -> w_f fw = Some fd ->
  env_seek env fd (tick w) = inr err ->
  let d := Sub (Truncate (env_now env (S (tick w))) Second) (w_start fw) in
  fileWrapper_readStatus env fw w =
    Ok (mkFileWrapper (w_sz fw) (w_f fw) (w_start fw) d,
        Sprintf fmt_done [ArgDuration d; ArgFloat f100],
        emit EvNow (emit (EvSeek (Some fd)) w)).
Proof.
  intros Hel Hf Hseek. unfold fileWrapper_readStatus, bind, os_Seek.
  rewrite Hel, Hf. change (negb (0 =? 0)) with false. cbn beta iota.
  rewrite Hseek. reflexivity.
Qed.

(** After a failed read at a later second than the start the wrapper is
    done for good: every further query is the frozen answer, without a
    read. *)
Lemma fileWrapper_failure_freezes env fw fd err w fw' st w' :
  w_elapsed fw = 0 -> w_f fw = Some fd ->
  env_seek env fd (tick w) = inr err ->
  Truncate (env_now env (S (tick w))) Second <> w_start fw ->
  fileWrapper_readStatus env fw w = Ok (fw', st, w') ->
  st = terminal (w_elapsed fw') /\ w_elapsed fw' <> 0 /\
  forall w2, fileWrapper_readStatus env fw' w2 = Ok (fw', terminal (w_elapsed fw'), w2).
Proof.
  intros Hel Hf Hseek Hnow.
  rewrite (fileWrapper_readStatus_failure env fw fd err w Hel Hf Hseek).
  assert (Hd : Sub (Truncate (env_now env (S (tick w))) Second) (w_start fw) <> 0).
  { intros E. apply (proj1 (Sub_zero_iff _ _)) in E. contradiction. }
  intros H. injection H as <- <- _. cbn [w_elapsed].
  split; [reflexivity |]. split; [exact Hd |].
  intros w2. now apply fileWrapper_readStatus_done.
Qed.

(** The percentage of an OffsetTracker over a file of [size] bytes at
    position [pos]: [pos / (size / 100)], in float64. *)
Lemma offset_percent_formula env fd size pos w fw w1 w2 :
  env_stat env fd (tick w) = inl size ->
  wrapFile env (Some fd) w = Ok (inl fw, w1) ->
  env_seek env fd (tick w2) = inl pos ->
  exists st w3,
    fileWrapper_readStatus env fw w2 = Ok (fw, st, w3) /\
    percent st =
      Some (float64_div (float64_of_int pos) (float64_div (float64_of_int size) f100)).
Proof.
  intros Hstat Hwrap Hseek. rewrite (wrapFile_ok env fd size w Hstat) in Hwrap.
  injection Hwrap as <- _.
  eexists _, _. split.
  - now apply (fileWrapper_readStatus_position env _ fd pos w2).
  - reflexivity.
Qed.

(** C3. [done] on a fileWrapper has no clamp: completed in the second it
    was made in, the wrapper keeps a zero elapsed time and is not done,
    where a spinner completed in the same way holds one second. *)
Theorem fileWrapper_done_without_clamp :
  exists fw w1 fw' w2 s w3 s' w4,
    wrapFile quick_env (Some 3%nat) world0 = Ok (inl fw, w1) /\
    fileWrapper_done quick_env fw w1 = Ok (fw', w2) /\
    w_elapsed fw' = 0 /\
    newSpinner quick_env world0 = Ok (s, w3) /\
    spinner_done quick_env s w3 = Ok (s', w4) /\
    s_elapsed s' = Second.
Proof. do 8 eexists. repeat (split; [lazy; reflexivity |]). lazy; reflexivity. Qed.

(** C6. A position read that fails in the second the wrapper was made in
    answers 100% with a zero elapsed time and leaves the wrapper not done.
    When the reads go on failing, the next query reads the position again
    and answers with another elapsed time; when the next read succeeds,
    the next query shows 50%. *)
Theorem fileWrapper_failure_in_first_second :
  (exists fw w1 fw1 st1 w2 fw2 st2 w3,
     wrapFile broken_env (Some 3%nat) world0 = Ok (inl fw, w1) /\
     fileWrapper_readStatus broken_env fw w1 = Ok (fw1, st1, w2) /\
     st1 = Sprintf fmt_done [ArgDuration 0; ArgFloat f100] /\
     w_elapsed fw1 = 0 /\
     fileWrapper_readStatus broken_env fw1 w2 = Ok (fw2, st2, w3) /\
     trace w3 = (trace w2 ++ [EvSeek (Some 3%nat); EvNow])%list /\
     st2 = terminal Second) /\
  (exists fw w1 fw1 st1 w2 fw2 st2 w3,
     wrapFile flaky_env (Some 3%nat) world0 = Ok (inl fw, w1) /\
     fileWrapper_readStatus flaky_env fw w1 = Ok (fw1, st1, w2) /\
     st1 = Sprintf fmt_done [ArgDuration 0; ArgFloat f100] /\
     w_elapsed fw1 = 0 /\
     fileWrapper_readStatus flaky_env fw1 w2 = Ok (fw2, st2, w3) /\
     trace w3 = (trace w2 ++ [EvSeek (Some 3%nat); EvNow])%list /\
     percent st2 = Some (float64_of_int 50) /\
     is_terminal st2 = false).
Proof.
  split; do 8 eexists; repeat (split; [lazy; reflexivity |]); lazy; reflexivity.
Qed.

(** C8. Over an empty file the size is 0, a hundredth of it is 0, and at
    position 0 = size the percentage is 0 / 0: not a number, where a file
    of 1000 bytes at position 1000 shows 100. *)
Theorem offset_percent_of_empty_file :
  exists fw w1 st w2 fw' w1' st' w2',
    wrapFile empty_env (Some 3%nat) world0 = Ok (inl fw, w1) /\
    fileWrapper_readStatus empty_env fw w1 = Ok (fw, st, w2) /\
    percent st = Some S754_nan /\
    wrapFile whole_env (Some 3%nat) world0 = Ok (inl fw', w1') /\
    fileWrapper_readStatus whole_env fw' w1' = Ok (fw', st', w2') /\
    percent st' = Some f100.
Proof. do 8 eexists. repeat (split; [lazy; reflexivity |]). lazy; reflexivity. Qed.

(** ** The registry: Remove *)

Lemma length_Z_app {A} (l1 l2 : list A) :
  length_Z (l1 ++ l2) = length_Z l1 + length_Z l2.
Proof. unfold length_Z. rewrite length_app. lia. Qed.

Lemma length_Z_nonneg {A} (l : list A) : 0 <= length_Z l.
Proof. unfold length_Z. lia. Qed.

(** The loop passes over entries of another name. *)
Lemma Remove_loop_skip name rs skip : forall i rest,
  Forall (fun r => Name r <> name) skip ->
  Remove_loop name rs i (skip ++ rest) =
  Remove_loop name rs (i + length_Z skip) rest.
Proof.
  induction skip as [| x skip IH]; intros i rest Hskip; simpl.
  - now rewrite Z.add_0_r.
  - inversion Hskip as [| ? ? Hx Hrest]; subst.
    destruct (String.eqb_spec (Name x) name) as [E | _]; [contradiction |].
    rewrite IH by assumption. f_equal. unfold length_Z. simpl List.length. lia.
Qed.

(** No entry of that name: nothing changes and nothing fails. *)
Lemma Remove_not_found name v w :
  mu v <> None ->
  Forall (fun r => Name r <> name) (readers v) ->
  Remove name v w = Ok (v, w).
Proof.
  intros Hmu Hno. unfold Remove, bind, Lock.
  destruct (mu v) as [m |] eqn:Em; [| contradiction]. unfold ret at 1.
  rewrite <- (app_nil_r (readers v)) at 2.
  rewrite Remove_loop_skip by assumption. simpl.
  unfold ret. destruct v; unfold set_readers; simpl in *. now rewrite Em.
Qed.

(** The first entry of that name, when it is not the last entry, is the
    one entry deleted, and the others keep their order. *)
Lemma Remove_not_last name v w pre x y post :
  mu v <> None ->
  readers v = (pre ++ x :: y :: post)%list ->
  Forall (fun r => Name r <> name) pre -> Name x = name ->
  Remove name v w = Ok (set_readers v (pre ++ y :: post), w).
Proof.
  intros Hmu Hrs Hpre Hx. unfold Remove, bind, Lock.
  destruct (mu v) as [m |]; [| contradiction]. unfold ret at 1.
  rewrite Hrs at 2. rewrite Remove_loop_skip by assumption.
  cbn [Remove_loop]. rewrite Hx, String.eqb_refl, Hrs.
  assert (Hlen : length_Z (pre ++ x :: y :: post) = length_Z pre + 2 + length_Z post).
  { rewrite length_Z_app. unfold length_Z. simpl List.length. lia. }
  pose proof (length_Z_nonneg pre) as Hp. pose proof (length_Z_nonneg post) as Hq.
  rewrite Hlen. destruct (Z.eqb_spec (0 + length_Z pre) (length_Z pre + 2 + length_Z post - 1)) as [E | _];
    [lia |].
  unfold slice_from, slice_to, bind. rewrite Hlen.
  replace ((0 <=? 0 + length_Z pre + 1) && (0 + length_Z pre + 1 <=? length_Z pre + 2 + length_Z post))
    with true by (symmetry; apply andb_true_iff; split; apply Z.leb_le; lia).
  unfold ret at 1.
  replace ((0 <=? 0 + length_Z pre) && (0 + length_Z pre <=? length_Z pre + 2 + length_Z post))
    with true by (symmetry; apply andb_true_iff; split; apply Z.leb_le; lia).
  unfold ret. do 3 f_equal.
  replace (Z.to_nat (0 + length_Z pre)) with (List.length pre + 0)%nat by (unfold length_Z; lia).
  replace (Z.to_nat (0 + length_Z pre + 1)) with (List.length pre + 1)%nat by (unfold length_Z; lia).
  rewrite firstn_app_2, skipn_app.
  rewrite skipn_all2 by lia.
  replace (List.length pre + 1 - List.length pre)%nat with 1%nat by lia.
  simpl. now rewrite app_nil_r.
Qed.

(** The first entry of that name, when it is the last entry and has an
    entry before it: the slice [readers[:i-1]] drops that entry as well. *)
Lemma Remove_last name v w pre y x :
  mu v <> None ->
  readers v = (pre ++ [y; x])%list ->
  Forall (fun r => Name r <> name) pre -> Name y <> name -> Name x = name ->
  Remove name v w = Ok (set_readers v pre, w).
Proof.
  intros Hmu Hrs Hpre Hy Hx. unfold Remove, bind, Lock.
  destruct (mu v) as [m |]; [| contradiction]. unfold ret at 1.
  rewrite Hrs at 2.
  replace (pre ++ [y; x])%list with ((pre ++ [y]) ++ [x])%list by now rewrite <- app_assoc.
  rewrite Remove_loop_skip by (apply Forall_app; split; [assumption | now constructor]).
  cbn [Remove_loop]. rewrite Hx, String.eqb_refl, Hrs.
  assert (Hlen : length_Z (pre ++ [y; x]) = length_Z pre + 2).
  { rewrite length_Z_app. reflexivity. }
  assert (Hlen1 : length_Z (pre ++ [y]) = length_Z pre + 1).
  { rewrite length_Z_app. reflexivity. }
  pose proof (length_Z_nonneg pre) as Hp.
  rewrite Hlen, Hlen1.
  destruct (Z.eqb_spec (0 + (length_Z pre + 1)) (length_Z pre + 2 - 1)) as [_ | E]; [| lia].
  unfold slice_to. rewrite Hlen.
  replace ((0 <=? 0 + (length_Z pre + 1) - 1) && (0 + (length_Z pre + 1) - 1 <=? length_Z pre + 2))
    with true by (symmetry; apply andb_true_iff; split; apply Z.leb_le; lia).
  unfold ret. do 3 f_equal.
  replace (Z.to_nat (0 + (length_Z pre + 1) - 1)) with (List.length pre + 0)%nat
    by (unfold length_Z; lia).
  rewrite firstn_app_2. simpl. now rewrite app_nil_r.
Qed.

(** C2. On a started registry with exactly one entry, [Remove] of that
    entry's name takes the last-element branch at index 0 and slices the
    entries at [:-1]: the call panics with a slice bound out of range and
    does not leave an empty registry. *)
Theorem Remove_single_entry_panics (v : Viz) (e : readInfo) (w : World) :
  mu v <> None -> readers v = [e] ->
  Remove (Name e) v w = Panic (SliceBoundsOutOfRange (-1)).
Proof.
  intros Hmu Hrs. unfold Remove, bind, Lock.
  destruct (mu v) as [m |]; [| contradiction]. unfold ret at 1.
  rewrite Hrs. cbn [Remove_loop]. rewrite String.eqb_refl. reflexivity.
Qed.

Lemma Remove_single_entry_panics_witness :
  Remove (Name (mkReadInfo "a" (VSpinner (mkSpinner 0 0 0)) None))
         (mkViz (Some mkMutex) [mkReadInfo "a" (VSpinner (mkSpinner 0 0 0)) None] 0 0)
         world0
  = Panic (SliceBoundsOutOfRange (-1)).
Proof.
  apply (Remove_single_entry_panics
           (mkViz (Some mkMutex) [mkReadInfo "a" (VSpinner (mkSpinner 0 0 0)) None] 0 0)
           (mkReadInfo "a" (VSpinner (mkSpinner 0 0 0)) None) world0).
  - simpl. discriminate.
  - reflexivity.
Defined.

(** C1. [Remove] of the name of the last of three entries deletes the
    entry before it as well: of a, b, c only a is left, where b and c had
    to stay in this order had c alone been deleted. *)
Theorem Remove_last_entry_drops_its_neighbour :
  let entry := fun name => mkReadInfo name (VSpinner (mkSpinner 0 0 0)) None in
  let v := mkViz (Some mkMutex) [entry "a"; entry "b"; entry "c"] 0 0 in
  Remove "c" v world0 = Ok (set_readers v [entry "a"], world0) /\
  Remove "b" v world0 = Ok (set_readers v [entry "a"; entry "c"], world0).
Proof. split; reflexivity. Qed.

(** ** The registry: redraw and Add *)

Lemma same_entry_refl r : wf_view (view r) -> same_entry r r.
Proof. intros H. repeat split. exact H. Qed.

Lemma same_entry_trans r1 r2 r3 :
  same_entry r1 r2 -> same_entry r2 r3 -> same_entry r1 r3.
Proof.
  intros (N1 & E1 & K1 & _) (N2 & E2 & K2 & W2).
  repeat split; first [congruence | exact W2].
Qed.

Lemma Forall2_same_entry_refl rs :
  wf_readers rs -> Forall2 same_entry rs rs.
Proof.
  induction 1 as [| r rs Hr _ IH]; constructor; auto using same_entry_refl.
Qed.

Lemma Forall2_same_entry_trans rs1 : forall rs2 rs3,
  Forall2 same_entry rs1 rs2 -> Forall2 same_entry rs2 rs3 ->
  Forall2 same_entry rs1 rs3.
Proof.
  induction rs1 as [| r rs1 IH]; intros rs2 rs3 H12 H23;
    inversion H12; subst; inversion H23; subst; constructor.
  - eapply same_entry_trans; eassumption.
  - eapply IH; eassumption.
Qed.

Lemma Forall2_same_entry_wf rs rs' :
  Forall2 same_entry rs rs' -> wf_readers rs'.
Proof.
  induction 1 as [| r r' rs rs' (_ & _ & _ & W) _ IH]; constructor; assumption.
Qed.

Lemma Forall2_same_entry_update rs : forall i r r',
  wf_readers rs -> nth_error rs i = Some r -> same_entry r r' ->
  Forall2 same_entry rs (update rs i r').
Proof.
  induction rs as [| x rs IH]; intros [| i] r r' Hwf Hnth Hsame;
    simpl in *; try discriminate; inversion Hwf; subst.
  - injection Hnth as ->. constructor; [assumption |].
    now apply Forall2_same_entry_refl.
  - constructor; [now apply same_entry_refl |]. eapply IH; eassumption.
Qed.

(** A status query on a well-formed view never panics and keeps the
    variant of the view. *)
Lemma View_readStatus_total env v w :
  wf_view v ->
  exists v' st w',
    View_readStatus env v w = Ok (v', st, w') /\
    kind_of v' = kind_of v /\ wf_view v'.
Proof.
  destruct v as [s | fw]; intros Hwf; unfold View_readStatus; cbn [readStatus spinner_view fileWrapper_view].
  - simpl in Hwf. rewrite len_Wheel in Hwf.
    destruct (Z.eq_dec (s_elapsed s) 0) as [E | E].
    + rewrite (bind_Ok _ _ _ _ _ (spinner_readStatus_live env s w E Hwf)).
      eexists _, _, _. split; [reflexivity |]. split; [reflexivity |].
      simpl. rewrite len_Wheel. apply Z.mod_pos_bound. lia.
    + rewrite (bind_Ok _ _ _ _ _ (spinner_readStatus_done env s w E)).
      eexists _, _, _. split; [reflexivity |]. split; [reflexivity |].
      simpl. now rewrite len_Wheel.
  - unfold bind, fileWrapper_readStatus.
    destruct (negb (w_elapsed fw =? 0)).
    + eexists _, _, _. split; [reflexivity |]. split; exact I || reflexivity.
    + unfold bind, os_Seek. destruct (w_f fw) as [fd |].
      * destruct (env_seek env fd (tick w)); eexists _, _, _;
          (split; [reflexivity |]; split; exact I || reflexivity).
      * eexists _, _, _. split; [reflexivity |]. split; exact I || reflexivity.
Qed.

Lemma at_index_ok {A} (l : list A) (i : Z) w :
  0 <= i < length_Z l ->
  exists x, at_index l i w = Ok (x, w) /\ nth_error l (Z.to_nat i) = Some x.
Proof.
  intros Hi. unfold at_index.
  replace ((0 <=? i) && (i <? length_Z l)) with true
    by (symmetry; apply andb_true_iff; split; [apply Z.leb_le | apply Z.ltb_lt]; lia).
  destruct (nth_error l (Z.to_nat i)) as [x |] eqn:E.
  - exists x. split; reflexivity.
  - apply nth_error_None in E. unfold length_Z in Hi. lia.
Qed.

Lemma Forall2_length_Z {A B} (R : A -> B -> Prop) l l' :
  Forall2 R l l' -> length_Z l' = length_Z l.
Proof. intros H. unfold length_Z. now rewrite (Forall2_length H). Qed.

(** The rows of a redraw: every query succeeds and the entries keep their
    names, errors and variants. *)
Lemma redraw_rows_total env n : forall width y ri rs w,
  wf_readers rs -> Z.of_nat n <= ri <= length_Z rs ->
  exists rs' w',
    redraw_rows env n width y ri rs w = Ok (rs', w') /\
    Forall2 same_entry rs rs'.
Proof.
  induction n as [| n IH]; intros width y ri rs w Hwf Hri.
  - exists rs, w. split; [reflexivity | now apply Forall2_same_entry_refl].
  - cbn [redraw_rows].
    assert (Hin : 0 <= ri - 1 < length_Z rs) by lia.
    destruct (at_index_ok rs (ri - 1) w Hin) as (r & Hat & Hnth).
    rewrite (bind_Ok _ _ _ _ _ Hat).
    assert (Hr : wf_view (view r)).
    { unfold wf_readers in Hwf. rewrite Forall_forall in Hwf.
      apply Hwf. eapply nth_error_In; eassumption. }
    destruct (View_readStatus_total env (view r) w Hr) as (v' & st & w1 & Hq & Hk & Hv').
    cbn [readStatus View_view]. rewrite (bind_Ok _ _ _ _ _ Hq). cbn [fst snd].
    unfold bind at 1, termbox at 1.
    set (rs1 := update rs (Z.to_nat (ri - 1)) (mkReadInfo (Name r) v' (Error r))).
    assert (H1 : Forall2 same_entry rs rs1).
    { apply Forall2_same_entry_update with (r := r); auto.
      repeat split; assumption. }
    destruct (IH width (y + 1) (ri - 1) rs1
                (emit (EvRow width y st (Name r)
                         match Error r with Some e => e | None => "" end) w1)
                (Forall2_same_entry_wf _ _ H1)) as (rs' & w' & Hrun & H2).
    { rewrite (Forall2_length_Z _ _ _ H1). lia. }
    exists rs', w'. split; [exact Hrun |].
    eapply Forall2_same_entry_trans; eassumption.
Qed.

Lemma redrawLocked_total env v w :
  wf_readers (readers v) ->
  exists rs' w',
    redrawLocked env v w = Ok (set_readers v rs', w') /\
    Forall2 same_entry (readers v) rs'.
Proof.
  intros Hwf. unfold redrawLocked.
  unfold bind at 1, termbox_Size at 1. unfold bind at 1, termbox at 1.
  rewrite (bind_Ok _ _ _ _ _ (now_seconds_eq env _)).
  unfold bind at 1, termbox at 1.
  match goal with
  | |- context [bind (redraw_rows env ?n ?wd ?y ?ri ?rs) _ ?w0] =>
      destruct (redraw_rows_total env n wd y ri rs w0 Hwf) as (rs' & w' & Hrun & Hsame)
  end.
  { pose proof (length_Z_nonneg (readers v)).
    destruct (length_Z (readers v) + 1 >? snd (env_size env (tick w))) eqn:E; [| lia].
    apply Z.gtb_lt in E. lia. }
  rewrite (bind_Ok _ _ _ _ _ Hrun).
  exists rs', (emit EvFlush w'). split; [reflexivity | exact Hsame].
Qed.

Lemma Forall2_same_entry_maps rs rs' :
  Forall2 same_entry rs rs' ->
  map Name rs' = map Name rs /\ map Error rs' = map Error rs /\
  map (fun r => kind_of (view r)) rs' = map (fun r => kind_of (view r)) rs.
Proof.
  induction 1 as [| r r' rs rs' (N & E & K & _) _ (IN & IE & IK)]; simpl.
  - repeat split.
  - rewrite N, E, K, IN, IE, IK. repeat split.
Qed.

Lemma newSpinner_eq env w :
  newSpinner env w =
    Ok (mkSpinner 0 (Truncate (env_now env (tick w)) Second) 0, emit EvNow w).
Proof. reflexivity. Qed.

(** The type switch of [Add] never fails, and classifies the handle. *)
Lemma Add_switch_total env name rdr w :
  exists info w1,
    Add_switch env name rdr w = Ok (info, w1) /\
    Name info = name /\ wf_view (view info) /\
    match rdr with
    | GzipReader =>
        kind_of (view info) = Spinner /\ Error info = Some gzipError
    | OsFile f =>
        (exists fw w2, wrapFile env f w = Ok (inl fw, w2) /\
           kind_of (view info) = OffsetTracker /\ Error info = None) \/
        (exists err w2, wrapFile env f w = Ok (inr err, w2) /\
           kind_of (view info) = Spinner /\ Error info = Some err)
    | OtherValue =>
        kind_of (view info) = Spinner /\ Error info = None
    end.
Proof.
  assert (Hwheel : 0 <= 0 < len Wheel) by (rewrite len_Wheel; lia).
  destruct rdr as [| f |]; unfold Add_switch.
  - rewrite (bind_Ok _ _ _ _ _ (newSpinner_eq env w)).
    eexists _, _. split; [reflexivity |]. split; [reflexivity |].
    split; [exact Hwheel |]. split; reflexivity.
  - destruct f as [fd |].
    + destruct (env_stat env fd (tick w)) as [size | err] eqn:Estat.
      * rewrite (bind_Ok _ _ _ _ _ (wrapFile_ok env fd size w Estat)).
        eexists _, _. split; [reflexivity |]. split; [reflexivity |]. split; [exact I |].
        left. rewrite (wrapFile_ok env fd size w Estat).
        eexists _, _. repeat split.
      * rewrite (bind_Ok _ _ _ _ _ (wrapFile_error env fd err w Estat)).
        rewrite (bind_Ok _ _ _ _ _ (newSpinner_eq env _)).
        eexists _, _. split; [reflexivity |]. split; [reflexivity |]. split; [exact Hwheel |].
        right. rewrite (wrapFile_error env fd err w Estat).
        eexists _, _. repeat split.
    + rewrite (bind_Ok _ _ _ _ _ (wrapFile_nil env w)).
      rewrite (bind_Ok _ _ _ _ _ (newSpinner_eq env _)).
      eexists _, _. split; [reflexivity |]. split; [reflexivity |]. split; [exact Hwheel |].
      right. rewrite wrapFile_nil. eexists _, _. repeat split.
  - rewrite (bind_Ok _ _ _ _ _ (newSpinner_eq env w)).
    eexists _, _. split; [reflexivity |]. split; [reflexivity |].
    split; [exact Hwheel |]. split; reflexivity.
Qed.

(** C5. On a started registry [Add] succeeds and appends exactly one entry,
    of the given name, behind the entries already there, which keep their
    names, errors and variants. The new entry is a Spinner with the
    cannot-inspect error for a gzip reader; for a file an OffsetTracker
    without error when [wrapFile] succeeds and a Spinner with the error of
    [wrapFile] when it fails; a Spinner without error for any other value. *)
Theorem Add_appends_classified_entry
    (env : Env) (name : string) (rdr : reader) (v : Viz) (w : World) :
  mu v <> None -> wf_readers (readers v) ->
  exists v' w' k err,
    Add env name rdr v w = Ok (v', w') /\
    List.length (readers v') = S (List.length (readers v)) /\
    map Name (readers v') = (map Name (readers v) ++ [name])%list /\
    map Error (readers v') = (map Error (readers v) ++ [err])%list /\
    map (fun r => kind_of (view r)) (readers v') =
      (map (fun r => kind_of (view r)) (readers v) ++ [k])%list /\
    wf_readers (readers v') /\
    match rdr with
    | GzipReader => k = Spinner /\ err = Some gzipError
    | OsFile f =>
        (exists fw w1, wrapFile env f w = Ok (inl fw, w1) /\
           k = OffsetTracker /\ err = None) \/
        (exists e w1, wrapFile env f w = Ok (inr e, w1) /\
           k = Spinner /\ err = Some e)
    | OtherValue => k = Spinner /\ err = None
    end.
Proof.
  intros Hmu Hwf.
  destruct (Add_switch_total env name rdr w) as (info & w1 & Hinfo & Hname & Hview & Hclass).
  unfold Add. rewrite (bind_Ok _ _ _ _ _ Hinfo).
  unfold bind at 1, Lock. destruct (mu v) as [m |] eqn:Emu; [| contradiction].
  unfold ret at 1.
  assert (Hwf' : wf_readers (readers (set_readers v (readers v ++ [info])))).
  { simpl. apply Forall_app. split; [exact Hwf | now constructor]. }
  destruct (redrawLocked_total env _ w1 Hwf') as (rs' & w' & Hdraw & Hsame).
  rewrite Hdraw. simpl readers in Hsame.
  destruct (Forall2_same_entry_maps _ _ Hsame) as (HN & HE & HK).
  exists (set_readers (set_readers v (readers v ++ [info])) rs'), w',
         (kind_of (view info)), (Error info).
  split; [reflexivity |]. simpl readers.
  split; [| split; [| split; [| split; [| split]]]].
  - rewrite <- (Forall2_length Hsame), length_app. simpl. lia.
  - now rewrite HN, map_app, <- Hname.
  - now rewrite HE, map_app.
  - now rewrite HK, map_app.
  - eapply Forall2_same_entry_wf; eassumption.
  - destruct rdr as [| f |]; [exact Hclass | | exact Hclass].
    destruct Hclass as [(fw & w2 & Hw & Hk & He) | (e & w2 & Hw & Hk & He)];
      [left | right]; eexists _, _; repeat split; eassumption.
Qed.

Lemma Add_appends_classified_entry_witness :
  exists v' w' k err,
    Add quick_env "b" (OsFile (Some 3%nat))
        (mkViz (Some mkMutex) [mkReadInfo "a" (VSpinner (mkSpinner 0 0 0)) None] 0 0)
        world0 = Ok (v', w') /\
    List.length (readers v') = 2%nat /\
    map Name (readers v') = ["a"; "b"] /\
    map Error (readers v') = [None; err] /\
    map (fun r => kind_of (view r)) (readers v') = [Spinner; k] /\
    wf_readers (readers v') /\
    ((exists fw w1, wrapFile quick_env (Some 3%nat) world0 = Ok (inl fw, w1) /\
        k = OffsetTracker /\ err = None) \/
     (exists e w1, wrapFile quick_env (Some 3%nat) world0 = Ok (inr e, w1) /\
        k = Spinner /\ err = Some e)).
Proof.
  apply (Add_appends_classified_entry quick_env "b" (OsFile (Some 3%nat))
           (mkViz (Some mkMutex) [mkReadInfo "a" (VSpinner (mkSpinner 0 0 0)) None] 0 0)
           world0).
  - simpl. discriminate.
  - constructor; [| constructor]. simpl. rewrite len_Wheel. lia.
Defined.

(** ** The registry: Complete *)

Lemma update_middle {A} (pre : list A) x post y :
  update (pre ++ x :: post) (List.length pre) y = (pre ++ y :: post)%list.
Proof. induction pre as [| p pre IH]; simpl; [| rewrite IH]; reflexivity. Qed.

Lemma Complete_loop_skip env name err rs skip : forall i rest,
  Forall (fun r => Name r <> name) skip ->
  Complete_loop env name err rs i (skip ++ rest) =
  Complete_loop env name err rs (i + length_Z skip) rest.
Proof.
  induction skip as [| x skip IH]; intros i rest Hskip; simpl.
  - now rewrite Z.add_0_r.
  - inversion Hskip as [| ? ? Hx Hrest]; subst.
    destruct (String.eqb_spec (Name x) name) as [E | _]; [contradiction |].
    rewrite IH by assumption. f_equal. unfold length_Z. simpl List.length. lia.
Qed.

(** No entry of that name: nothing changes and nothing fails. *)
Lemma Complete_not_found env name err v w :
  mu v <> None ->
  Forall (fun r => Name r <> name) (readers v) ->
  Complete env name err v w = Ok (v, w).
Proof.
  intros Hmu Hno. unfold Complete, bind, Lock.
  destruct (mu v) as [m |] eqn:Em; [| contradiction]. unfold ret at 1.
  rewrite <- (app_nil_r (readers v)) at 2.
  rewrite Complete_loop_skip by assumption. simpl.
  unfold ret. destruct v; unfold set_readers; simpl in *. now rewrite Em.
Qed.

(** The first entry of that name gets its view marked done and the error
    stored; the other entries are as before. *)
Lemma Complete_first_match env name err v w pre x post vw w' :
  mu v <> None ->
  readers v = (pre ++ x :: post)%list ->
  Forall (fun r => Name r <> name) pre -> Name x = name ->
  View_done env (view x) w = Ok (vw, w') ->
  Complete env name err v w =
    Ok (set_readers v (pre ++ mkReadInfo name vw err :: post), w').
Proof.
  intros Hmu Hrs Hpre Hx Hdone. unfold Complete, bind at 1, Lock.
  destruct (mu v) as [m |]; [| contradiction]. unfold ret at 1.
  unfold bind. rewrite Hrs at 2. rewrite Complete_loop_skip by assumption.
  cbn [Complete_loop]. rewrite Hx, String.eqb_refl.
  unfold bind. cbn [done View_view]. rewrite Hdone. unfold ret.
  rewrite Hrs. replace (Z.to_nat (0 + length_Z pre)) with (List.length pre)
    by (unfold length_Z; lia).
  now rewrite update_middle.
Qed.

(** A spinner marked done shows the terminal status at every later query. *)
Lemma View_done_spinner_terminal env s w vw w' :
  View_done env (VSpinner s) w = Ok (vw, w') ->
  elapsed_of vw <> 0 /\
  forall w2, View_readStatus env vw w2 = Ok (vw, terminal (elapsed_of vw), w2).
Proof.
  unfold View_done. cbn [done spinner_view]. unfold bind.
  destruct (spinner_done env s w) as [[s' w1] | p] eqn:E; [| discriminate].
  intros H. injection H as <- <-.
  pose proof (spinner_done_nonzero env s w s' w1 E) as Hnz.
  split; [exact Hnz |]. intros w2.
  unfold View_readStatus. cbn [readStatus spinner_view].
  now rewrite (bind_Ok _ _ _ _ _ (spinner_readStatus_done env s' w2 Hnz)).
Qed.

(** C4. [Add] of a file and [Complete] of its name within one second leave
    the entry with a zero elapsed time: the next status query reads the
    position and shows 50%, not the terminal status. *)
Theorem Complete_within_first_second_not_terminal :
  exists v1 w1 v2 w2 v3 w3 e st w4,
    Start quick_env Second zeroViz world0 = Ok (v1, w1) /\
    Add quick_env "a" (OsFile (Some 3%nat)) v1 w1 = Ok (v2, w2) /\
    Complete quick_env "a" None v2 w2 = Ok (v3, w3) /\
    readers v3 = [e] /\ Name e = "a" /\
    kind_of (view e) = OffsetTracker /\ elapsed_of (view e) = 0 /\
    View_readStatus quick_env (view e) w3 = Ok (view e, st, w4) /\
    is_terminal st = false /\
    percent st = Some (float64_of_int 50).
Proof. do 9 eexists. repeat (split; [lazy; reflexivity |]). lazy; reflexivity. Qed.

(** ** The registry: the entries stay well formed *)

Lemma Forall_firstn_skipn {A} (P : A -> Prop) k (l : list A) :
  Forall P l -> Forall P (firstn k l) /\ Forall P (skipn k l).
Proof.
  intros H. rewrite <- (firstn_skipn k l) in H. now apply Forall_app in H.
Qed.

Lemma Forall_update {A} (P : A -> Prop) (l : list A) : forall i x,
  Forall P l -> P x -> Forall P (update l i x).
Proof.
  induction l as [| y l IH]; intros [| i] x Hl Hx; simpl; auto;
    inversion Hl; subst; constructor; auto.
Qed.

Lemma View_done_wf env v w v' w' :
  wf_view v -> View_done env v w = Ok (v', w') -> wf_view v'.
Proof.
  destruct v as [s | fw]; unfold View_done; cbn [done spinner_view fileWrapper_view].
  - intros Hwf. unfold bind. rewrite spinner_done_eq.
    intros H. injection H as <- _. exact Hwf.
  - intros _. unfold bind. rewrite fileWrapper_done_eq.
    intros H. injection H as <- _. exact I.
Qed.

Lemma Start_wf env d v w v' w' :
  wf_readers (readers v) -> Start env d v w = Ok (v', w') ->
  mu v' <> None /\ wf_readers (readers v').
Proof.
  intros Hwf H. unfold Start, bind in H. rewrite now_seconds_eq in H.
  injection H as <- _. split; [discriminate | exact Hwf].
Qed.

Lemma Complete_loop_wf env name err rs w rs' w' : forall rest i,
  wf_readers rs -> wf_readers rest ->
  Complete_loop env name err rs i rest w = Ok (rs', w') -> wf_readers rs'.
Proof.
  induction rest as [| x rest IH]; intros i Hrs Hrest; simpl.
  - intros H. injection H as <- _. exact Hrs.
  - inversion Hrest as [| ? ? Hx Hrest']; subst.
    destruct (String.eqb (Name x) name).
    + unfold bind. cbn [done View_view].
      destruct (View_done env (view x) w) as [[vw w1] | p] eqn:E; [| discriminate].
      intros H. injection H as <- _. apply Forall_update; [exact Hrs |].
      simpl. eapply View_done_wf; eassumption.
    + now apply IH.
Qed.

Lemma Complete_wf env name err v w v' w' :
  wf_readers (readers v) -> Complete env name err v w = Ok (v', w') ->
  mu v' = mu v /\ wf_readers (readers v').
Proof.
  intros Hwf. unfold Complete, bind at 1, Lock.
  destruct (mu v) as [m |] eqn:Em; [| discriminate]. unfold ret at 1. unfold bind.
  destruct (Complete_loop env name err (readers v) 0 (readers v) w) as [[rs w1] | p] eqn:E;
    [| discriminate].
  intros H. injection H as <- _. split; [exact Em |].
  simpl. eapply Complete_loop_wf; [| | exact E]; assumption.
Qed.

Lemma Remove_loop_wf name rs w rs' w' : forall rest i,
  wf_readers rs ->
  Remove_loop name rs i rest w = Ok (rs', w') -> wf_readers rs'.
Proof.
  induction rest as [| x rest IH]; intros i Hrs; simpl.
  - intros H. injection H as <- _. exact Hrs.
  - destruct (String.eqb (Name x) name); [| now apply IH].
    destruct (i =? length_Z rs - 1).
    + unfold slice_to. destruct ((0 <=? i - 1) && (i - 1 <=? length_Z rs)); [| discriminate].
      intros H. injection H as <- _. now apply Forall_firstn_skipn.
    + unfold bind, slice_from, slice_to.
      destruct ((0 <=? i + 1) && (i + 1 <=? length_Z rs)); [| discriminate].
      unfold ret at 1.
      destruct ((0 <=? i) && (i <=? length_Z rs)); [| discriminate].
      intros H. injection H as <- _.
      apply Forall_app. split; now apply Forall_firstn_skipn.
Qed.

Lemma Remove_wf name v w v' w' :
  wf_readers (readers v) -> Remove name v w = Ok (v', w') ->
  mu v' = mu v /\ wf_readers (readers v').
Proof.
  intros Hwf. unfold Remove, bind at 1, Lock.
  destruct (mu v) as [m |] eqn:Em; [| discriminate]. unfold ret at 1. unfold bind.
  destruct (Remove_loop name (readers v) 0 (readers v) w) as [[rs w1] | p] eqn:E;
    [| discriminate].
  intros H. injection H as <- _. split; [exact Em |].
  simpl. eapply Remove_loop_wf; [| exact E]; assumption.
Qed.

(** ** BoundedExec: the worker pool *)

Lemma pool_split (l : list goroutine) k g :
  nth_error l k = Some g ->
  exists l1 l2, l = (l1 ++ g :: l2)%list /\ List.length l1 = k.
Proof. apply nth_error_split. Qed.

Lemma weight_pool_app l1 l2 :
  list_sum (map weight_goroutine (l1 ++ l2)) =
  (list_sum (map weight_goroutine l1) + list_sum (map weight_goroutine l2))%nat.
Proof. now rewrite map_app, list_sum_app. Qed.

Lemma calling_app l1 l2 : calling (l1 ++ l2) = (calling l1 ++ calling l2)%list.
Proof. unfold calling. apply flat_map_app. Qed.

Lemma live_app l1 l2 : live (l1 ++ l2) = live l1 + live l2.
Proof. unfold live. now rewrite filter_app, length_Z_app. Qed.

Lemma live_nonneg l : 0 <= live l.
Proof. apply length_Z_nonneg. Qed.

Lemma live_zero_all_exited l : live l = 0 -> Forall (eq Exited) l.
Proof.
  induction l as [| g l IH]; intros H; constructor.
  - destruct g; try reflexivity;
      unfold live, length_Z in H; simpl in H; lia.
  - apply IH. pose proof (live_nonneg l).
    change (g :: l) with ([g] ++ l)%list in H. rewrite live_app in H.
    pose proof (live_nonneg [g]). lia.
Qed.

Lemma active_le_pool s : active s <= length_Z (pool s).
Proof.
  unfold active, length_Z. apply inj_le. apply filter_length_le.
Qed.

Lemma active_calling s : active s = length_Z (calling (pool s)).
Proof.
  unfold active, length_Z. f_equal.
  induction (pool s) as [| g l IH]; [reflexivity |].
  destruct g; simpl; now rewrite IH.
Qed.

Lemma calling_all_exited l : Forall (eq Exited) l -> calling l = [].
Proof. induction 1 as [| g l <- _ IH]; [reflexivity | exact IH]. Qed.

Lemma active_all_exited s : Forall (eq Exited) (pool s) -> active s = 0.
Proof.
  unfold active. induction 1 as [| g l <- _ IH]; [reflexivity | exact IH].
Qed.

(** Every step uses up some of the measure: no execution is longer than
    the measure of its first state. *)
Lemma step_measure n names l s s' :
  step n names l s = Some s' -> (measure n names s' < measure n names s)%nat.
Proof.
  destruct s as [p c b cl g pl bg en]. unfold measure.
  destruct l as [| k | k]; unfold step, step_main, step_handoff, step_worker;
    cbn [pc cap buf closed wg pool began ended].
  - destruct p as [i | [| x rest] | |].
    + destruct (Z.ltb_spec i n) as [Hlt | Hge]; intros H; injection H as <-;
        cbn [pc buf pool weight_pc].
      * rewrite weight_pool_app. simpl. lia.
      * lia.
    + intros H; injection H as <-. simpl. lia.
    + destruct (length_Z b <? c); [| discriminate].
      intros H; injection H as <-. cbn [pc buf pool weight_pc].
      rewrite length_app. simpl. lia.
    + destruct (g =? 0); [| discriminate]. intros H; injection H as <-. simpl. lia.
    + discriminate.
  - destruct p as [i | [| x rest] | |]; try discriminate.
    destruct b; try discriminate.
    destruct (nth_error pl k) as [[| y |] |] eqn:E; try discriminate.
    intros H; injection H as <-. cbn [pc buf pool weight_pc].
    destruct (pool_split _ _ _ E) as (l1 & l2 & -> & <-).
    rewrite update_middle, !weight_pool_app. simpl. lia.
  - destruct (nth_error pl k) as [[| y |] |] eqn:E; try discriminate;
      destruct (pool_split _ _ _ E) as (l1 & l2 & -> & <-).
    + destruct b as [| x b].
      * destruct cl; [| discriminate]. intros H; injection H as <-.
        cbn [pc buf pool]. rewrite update_middle, !weight_pool_app. simpl. lia.
      * intros H; injection H as <-.
        cbn [pc buf pool]. rewrite update_middle, !weight_pool_app. simpl. lia.
    + intros H; injection H as <-.
      cbn [pc buf pool]. rewrite update_middle, !weight_pool_app. simpl. lia.
Qed.

Lemma run_measure n names sched : forall s s',
  run n names sched s = Some s' ->
  (List.length sched + measure n names s' <= measure n names s)%nat.
Proof.
  induction sched as [| l sched IH]; intros s s' H; simpl in H.
  - injection H as <-. simpl. lia.
  - destruct (step n names l s) as [s1 |] eqn:E; [| discriminate].
    apply step_measure in E. apply IH in H. simpl. lia.
Qed.

Lemma live_middle l1 g l2 :
  live (l1 ++ g :: l2) =
  live l1 + (match g with Exited => 0 | _ => 1 end) + live l2.
Proof.
  rewrite live_app. change (g :: l2) with ([g] ++ l2)%list. rewrite live_app.
  assert (Hg : live [g] = match g with Exited => 0 | _ => 1 end)
    by (destruct g; reflexivity).
  rewrite Hg. lia.
Qed.

Lemma calling_middle l1 g l2 :
  calling (l1 ++ g :: l2) =
  (calling l1 ++ (match g with Calling x => [x] | _ => [] end) ++ calling l2)%list.
Proof. rewrite calling_app. reflexivity. Qed.

Lemma In_Exited_middle l1 g g' l2 :
  g' <> Exited -> In Exited (l1 ++ g' :: l2) -> In Exited (l1 ++ g :: l2).
Proof.
  intros Hg H. apply in_app_or in H. apply in_or_app.
  destruct H as [H | [H | H]]; [now left | contradiction | right; now right].
Qed.

Lemma length_Z_middle {A} (l1 : list A) x y l2 :
  length_Z (l1 ++ y :: l2) = length_Z (l1 ++ x :: l2).
Proof. unfold length_Z. now rewrite !length_app. Qed.

Lemma Inv_init n names s0 :
  BoundedExec_init n = Ok s0 -> Inv n names s0.
Proof.
  unfold BoundedExec_init. destruct (Z.ltb_spec n 0) as [Hlt | Hge]; [discriminate |].
  intros H; injection H as <-. constructor; simpl; try reflexivity; try lia.
  - split; [lia | reflexivity].
  - unfold length_Z. simpl. lia.
Qed.

(** The pool of a state keeps its length under a worker's move. *)
Ltac pool_at E :=
  let l1 := fresh "l1" in
  let l2 := fresh "l2" in
  destruct (pool_split _ _ _ E) as (l1 & l2 & -> & <-);
  rewrite ?update_middle.

Lemma Inv_step n names l s s' :
  Inv n names s -> step n names l s = Some s' -> Inv n names s'.
Proof.
  destruct s as [p c b cl g pl bg en].
  intros [Hcap Hpool Hwg Hitems Hcalls Hclosed Hexit Hbuf Hret];
    cbn [pc cap buf closed wg pool began ended] in *.
  destruct l as [| k | k]; unfold step, step_main, step_handoff, step_worker;
    cbn [pc cap buf closed wg pool began ended].
  - destruct p as [i | [| x rest] | |].
    + destruct Hpool as [Hi Hlen].
      destruct (Z.ltb_spec i n) as [Hlt | Hge]; intros H; injection H as <-;
        constructor; cbn [pc cap buf closed wg pool began ended remaining]; auto; try discriminate.
      * rewrite length_Z_app. unfold length_Z at 2. simpl. lia.
      * rewrite live_app. unfold live at 2. unfold length_Z. simpl. lia.
      * rewrite calling_app. simpl. now rewrite app_nil_r.
      * intros Hin. apply Hexit. apply in_app_or in Hin.
        destruct Hin as [Hin | [Hin | []]]; [exact Hin | discriminate].
      * lia.
    + intros H; injection H as <-.
      constructor; cbn [pc cap buf closed wg pool began ended remaining]; auto; try discriminate.
      intros Hin. destruct (Hexit Hin) as [_ Hc]. congruence.
    + destruct (Z.ltb_spec (length_Z b) c) as [Hlt | Hge]; [| discriminate].
      intros H; injection H as <-.
      constructor; cbn [pc cap buf closed wg pool began ended remaining]; auto; try discriminate.
      * etransitivity; [| exact Hitems]. rewrite <- !app_assoc. reflexivity.
      * intros Hin. destruct (Hexit Hin) as [_ Hc]. congruence.
      * rewrite length_Z_app. unfold length_Z at 2. simpl. lia.
    + destruct (Z.eqb_spec g 0) as [Hz | Hnz]; [| discriminate].
      intros H; injection H as <-.
      constructor; cbn [pc cap buf closed wg pool began ended remaining]; auto; try discriminate.
    + discriminate.
  - destruct p as [i | [| x rest] | |]; try discriminate.
    destruct b; try discriminate.
    destruct (nth_error pl k) as [[| y |] |] eqn:E; try discriminate.
    intros H; injection H as <-. pool_at E.
    constructor; cbn [pc cap buf closed wg pool began ended remaining] in *; auto; try discriminate.
    + now rewrite (length_Z_middle l1 Receiving).
    + rewrite Hwg, !live_middle. reflexivity.
    + etransitivity; [| exact Hitems]. rewrite <- !app_assoc. reflexivity.
    + rewrite <- Hcalls. rewrite !calling_middle. cbn [app].
      rewrite <- Permutation_cons_append. rewrite <- !Permutation_middle. reflexivity.
    + intros Hin. apply Hexit. revert Hin. apply In_Exited_middle. discriminate.
  - destruct (nth_error pl k) as [[| y |] |] eqn:E; try discriminate.
    + destruct b as [| x b].
      * destruct cl; [| discriminate]. intros H; injection H as <-. pool_at E.
        constructor; cbn [pc cap buf closed wg pool began ended remaining] in *; auto; try discriminate.
        -- rewrite (length_Z_middle l1 Receiving). exact Hpool.
        -- rewrite Hwg, !live_middle. lia.
        -- rewrite <- Hcalls. rewrite !calling_middle. reflexivity.
        -- intros Ep. specialize (Hret Ep). rewrite Hret, live_middle in Hwg.
           pose proof (live_nonneg l1). pose proof (live_nonneg l2). lia.
      * intros H; injection H as <-. pool_at E.
        constructor; cbn [pc cap buf closed wg pool began ended remaining] in *; auto; try discriminate.
        -- rewrite (length_Z_middle l1 Receiving). exact Hpool.
        -- rewrite Hwg, !live_middle. reflexivity.
        -- etransitivity; [| exact Hitems]. rewrite <- !app_assoc. reflexivity.
        -- rewrite <- Hcalls. rewrite !calling_middle. cbn [app].
           rewrite <- Permutation_cons_append. rewrite <- !Permutation_middle. reflexivity.
        -- intros Hin. assert (Hin' : In Exited (l1 ++ Receiving :: l2)).
           { revert Hin. apply In_Exited_middle. discriminate. }
           destruct (Hexit Hin') as [Hb _]. discriminate.
        -- unfold length_Z in *. simpl in Hbuf. lia.
    + intros H; injection H as <-. pool_at E.
      constructor; cbn [pc cap buf closed wg pool began ended remaining] in *; auto; try discriminate.
      * rewrite (length_Z_middle l1 (Calling y)). exact Hpool.
      * rewrite Hwg, !live_middle. reflexivity.
      * rewrite <- Hcalls. rewrite !calling_middle. cbn [app].
        rewrite <- !app_assoc. cbn [app].
        rewrite <- !Permutation_middle. reflexivity.
      * intros Hin. apply Hexit. revert Hin. apply In_Exited_middle. discriminate.
Qed.

Lemma Inv_run n names sched : forall s s',
  Inv n names s -> run n names sched s = Some s' -> Inv n names s'.
Proof.
  induction sched as [| l sched IH]; intros s s' HI H; simpl in H.
  - now injection H as <-.
  - destruct (step n names l s) as [s1 |] eqn:E; [| discriminate].
    eapply IH; [| exact H]. eapply Inv_step; eassumption.
Qed.

Lemma live_pos_exists l :
  live l <> 0 -> exists k g, nth_error l k = Some g /\ g <> Exited.
Proof.
  induction l as [| g l IH]; intros H.
  - now contradiction H.
  - destruct g as [| x |].
    + exists 0%nat, Receiving. split; [reflexivity | discriminate].
    + exists 0%nat, (Calling x). split; [reflexivity | discriminate].
    + destruct IH as (k & g & Hk & Hg).
      * intros E. apply H. change (Exited :: l) with ([] ++ Exited :: l)%list.
        rewrite live_middle. rewrite E. reflexivity.
      * exists (S k), g. split; assumption.
Qed.

(** A worker that has not returned can move whenever the queue holds a
    name or is closed. *)
Lemma worker_can_move n names s k g :
  nth_error (pool s) k = Some g -> g <> Exited ->
  buf s <> [] \/ closed s = true ->
  exists s', step n names (Worker k) s = Some s'.
Proof.
  intros Hk Hg Hb. unfold step, step_worker. rewrite Hk.
  destruct g as [| x |]; [| eexists; reflexivity | contradiction].
  destruct (buf s) as [| x b]; [| eexists; reflexivity].
  destruct Hb as [Hb | ->]; [contradiction | eexists; reflexivity].
Qed.

(** With at least one worker an execution that has not returned is never
    stuck. *)
Lemma Inv_progress n names s :
  1 <= n -> Inv n names s -> pc s <> Returned ->
  exists l s', step n names l s = Some s'.
Proof.
  intros Hn [Hcap Hpool Hwg Hitems Hcalls Hclosed Hexit Hbuf Hret] Hpc.
  destruct (pc s) as [i | [| x rest] | |] eqn:Epc.
  - exists Main. unfold step, step_main. rewrite Epc.
    destruct (i <? n); eexists; reflexivity.
  - exists Main. unfold step, step_main. rewrite Epc. eexists; reflexivity.
  - destruct (Z.ltb_spec (length_Z (buf s)) (cap s)) as [Hlt | Hge].
    + exists Main. unfold step, step_main. rewrite Epc.
      apply Z.ltb_lt in Hlt. rewrite Hlt. eexists; reflexivity.
    + destruct (pool s) as [| g pl] eqn:Epool.
      { unfold length_Z in Hpool. simpl in Hpool. lia. }
      assert (Hb : buf s <> []).
      { intros Eb. rewrite Eb in Hge. unfold length_Z in Hge. simpl in Hge. lia. }
      assert (Hg : g <> Exited).
      { intros ->. destruct Hexit as [Eb _]; [now left | contradiction]. }
      exists (Worker 0).
      apply worker_can_move with (g := g); [now rewrite Epool | exact Hg | now left].
  - destruct (Z.eqb_spec (wg s) 0) as [Hz | Hnz].
    + exists Main. unfold step, step_main. rewrite Epc.
      apply Z.eqb_eq in Hz. rewrite Hz. eexists; reflexivity.
    + rewrite Hwg in Hnz. destruct (live_pos_exists _ Hnz) as (k & g & Hk & Hg).
      exists (Worker k). apply worker_can_move with (g := g); auto.
  - contradiction.
Qed.


(** What an execution that has returned has done: every name was handed
    to [nameFunc] once, every call has returned, every worker has
    returned. *)
Lemma Inv_returned n names s :
  1 <= n -> Inv n names s -> pc s = Returned ->
  Permutation (began s) names /\ Permutation (ended s) names /\
  active s = 0 /\ Forall (eq Exited) (pool s) /\ buf s = [].
Proof.
  intros Hn [Hcap Hpool Hwg Hitems Hcalls Hclosed Hexit Hbuf Hret] Epc.
  specialize (Hret Epc). rewrite Epc in *. cbn [remaining] in Hitems.
  assert (Hall : Forall (eq Exited) (pool s)).
  { apply live_zero_all_exited. congruence. }
  assert (Hb : buf s = []).
  { destruct (pool s) as [| g pl] eqn:Epool.
    - unfold length_Z in Hpool. simpl in Hpool. lia.
    - inversion Hall as [| ? ? Hg _]; subst. apply Hexit. now left. }
  rewrite Hb, !app_nil_r in Hitems.
  rewrite (calling_all_exited _ Hall), app_nil_r in Hcalls.
  repeat split; auto.
  - now rewrite Hcalls.
  - now apply active_all_exited.
Qed.

(** C10. With [n >= 1] the dispatcher starts, and in every state of every
    execution: there are at most [n] workers, and exactly [n] once the
    spawning loop is left; at most [n] calls of [nameFunc] are in
    progress, which are the calls begun and not yet returned; the names handed to [nameFunc] are names of the input, each
    at most as often as it occurs there; when the dispatcher has returned,
    every name was handed to [nameFunc] exactly once, every call has
    returned and every worker has returned; while it has not returned
    some goroutine can move; and no execution takes more steps than the
    measure of the first state. *)
Theorem BoundedExec_once_per_item_at_most_n (n : Z) (names : list string) :
  1 <= n ->
  exists s0,
    BoundedExec_init n = Ok s0 /\
    forall sched s, run n names sched s0 = Some s ->
      length_Z (pool s) <= n /\
      (match pc s with Spawning _ => True | _ => length_Z (pool s) = n end) /\
      active s <= n /\
      active s = length_Z (began s) - length_Z (ended s) /\
      (exists pending, Permutation (began s ++ pending) names) /\
      (pc s = Returned ->
         Permutation (began s) names /\ Permutation (ended s) names /\
         active s = 0 /\ Forall (eq Exited) (pool s)) /\
      (pc s <> Returned -> exists l s', step n names l s = Some s') /\
      (List.length sched <= measure n names s0)%nat.
Proof.
  intros Hn. unfold BoundedExec_init.
  destruct (Z.ltb_spec n 0) as [Hlt | _]; [lia |].
  eexists. split; [reflexivity |]. intros sched s Hrun.
  assert (HI : Inv n names s).
  { eapply Inv_run; [| exact Hrun]. apply Inv_init. unfold BoundedExec_init.
    destruct (Z.ltb_spec n 0); [lia | reflexivity]. }
  assert (Hpool : length_Z (pool s) <= n).
  { pose proof (inv_pool _ _ _ HI) as H. destruct (pc s); lia. }
  split; [exact Hpool |]. split; [| split; [| split; [| split; [| split; [| split]]]]].
  - pose proof (inv_pool _ _ _ HI) as H. destruct (pc s); auto.
  - pose proof (active_le_pool s). lia.
  - rewrite active_calling. pose proof (inv_calls _ _ _ HI) as H.
    apply Permutation_length in H. rewrite length_app in H. unfold length_Z. lia.
  - exists (buf s ++ remaining names (pc s))%list. apply (inv_items _ _ _ HI).
  - intros Epc. destruct (Inv_returned n names s Hn HI Epc) as (H1 & H2 & H3 & H4 & _).
    auto.
  - intros Hpc. now apply Inv_progress.
  - apply run_measure in Hrun. lia.
Qed.

Lemma BoundedExec_once_per_item_at_most_n_witness :
  exists s0,
    BoundedExec_init 3 = Ok s0 /\
    forall sched s,
      run 3 ["f0"; "f1"; "f2"; "f3"; "f4"; "f5"; "f6"; "f7"; "f8"; "f9"] sched s0 = Some s ->
      length_Z (pool s) <= 3 /\
      (match pc s with Spawning _ => True | _ => length_Z (pool s) = 3 end) /\
      active s <= 3 /\
      active s = length_Z (began s) - length_Z (ended s) /\
      (exists pending,
         Permutation (began s ++ pending)
           ["f0"; "f1"; "f2"; "f3"; "f4"; "f5"; "f6"; "f7"; "f8"; "f9"]) /\
      (pc s = Returned ->
         Permutation (began s) ["f0"; "f1"; "f2"; "f3"; "f4"; "f5"; "f6"; "f7"; "f8"; "f9"] /\
         Permutation (ended s) ["f0"; "f1"; "f2"; "f3"; "f4"; "f5"; "f6"; "f7"; "f8"; "f9"] /\
         active s = 0 /\ Forall (eq Exited) (pool s)) /\
      (pc s <> Returned ->
         exists l s',
           step 3 ["f0"; "f1"; "f2"; "f3"; "f4"; "f5"; "f6"; "f7"; "f8"; "f9"] l s = Some s') /\
      (List.length sched <=
       measure 3 ["f0"; "f1"; "f2"; "f3"; "f4"; "f5"; "f6"; "f7"; "f8"; "f9"] s0)%nat.
Proof.
  apply (BoundedExec_once_per_item_at_most_n 3
           ["f0"; "f1"; "f2"; "f3"; "f4"; "f5"; "f6"; "f7"; "f8"; "f9"]).
  lia.
Defined.

(** Three workers over ten names: the schedule [three_busy] has three
    calls in progress after ten steps and runs to the return, with every
    name handed over once. *)
Example BoundedExec_three_workers_ten_names :
  exists s0 s10 s,
    BoundedExec_init 3 = Ok s0 /\
    run 3 ten_names (firstn 10 three_busy) s0 = Some s10 /\ active s10 = 3 /\
    run 3 ten_names three_busy s0 = Some s /\
    pc s = Returned /\ began s = ten_names /\ ended s = ten_names.
Proof. do 3 eexists. repeat (split; [lazy; reflexivity |]). lazy; reflexivity. Qed.

(** ** BoundedExec without workers *)

(** With [n = 0] an execution over at least one name is in one of two
    states: before the spawning loop, which spawns nothing, or at the first
    send, which no receiver will ever take. *)
Lemma zero_workers_states x rest sched : forall s,
  s = mkExec (Spawning 0) 0 [] false 0 [] [] [] \/
  s = mkExec (Sending (x :: rest)) 0 [] false 0 [] [] [] ->
  forall s', run 0 (x :: rest) sched s = Some s' ->
  s' = mkExec (Spawning 0) 0 [] false 0 [] [] [] \/
  s' = mkExec (Sending (x :: rest)) 0 [] false 0 [] [] [].
Proof.
  induction sched as [| l sched IH]; intros s Hs s' Hrun; simpl in Hrun.
  - injection Hrun as <-. exact Hs.
  - destruct (step 0 (x :: rest) l s) as [s1 |] eqn:E; [| discriminate].
    apply (IH s1); [| exact Hrun].
    destruct Hs as [-> | ->]; destruct l as [| k | k];
      try (destruct k; discriminate E).
    + injection E as <-. now right.
    + discriminate E.
Qed.

(** C9, as the code has it. [BoundedExec] neither rejects nor clamps a
    concurrency [n <= 0]. A negative [n] panics when the queue is made. With
    [n = 0] and at least one name no worker is spawned, the send of the
    first name blocks for good at an unbuffered queue nobody receives
    from, no name is ever handed to [nameFunc] and the call never returns. *)
Theorem BoundedExec_without_workers (n : Z) (names : list string) :
  n <= 0 -> names <> [] ->
  match BoundedExec_init n with
  | Panic p => n < 0 /\ p = MakeChanSizeOutOfRange n
  | Ok s0 =>
      n = 0 /\
      exists s1,
        run n names [Main] s0 = Some s1 /\
        (forall l, step n names l s1 = None) /\
        forall sched s, run n names sched s0 = Some s ->
          began s = [] /\ pool s = [] /\ pc s <> Returned
  end.
Proof.
  intros Hn Hnames. unfold BoundedExec_init.
  destruct (Z.ltb_spec n 0) as [Hlt | Hge]; [split; [exact Hlt | reflexivity] |].
  assert (n = 0) as -> by lia. split; [reflexivity |].
  destruct names as [| x rest]; [contradiction |].
  exists (mkExec (Sending (x :: rest)) 0 [] false 0 [] [] []).
  split; [reflexivity |]. split.
  - intros [| k | k]; try reflexivity; destruct k; reflexivity.
  - intros sched s Hrun.
    destruct (zero_workers_states x rest sched _ (or_introl eq_refl) s Hrun) as [-> | ->];
      repeat split; discriminate.
Qed.

Lemma BoundedExec_without_workers_witness :
  match BoundedExec_init 0 with
  | Panic p => 0 < 0 /\ p = MakeChanSizeOutOfRange 0
  | Ok s0 =>
      0 = 0 /\
      exists s1,
        run 0 ["a"] [Main] s0 = Some s1 /\
        (forall l, step 0 ["a"] l s1 = None) /\
        forall sched s, run 0 ["a"] sched s0 = Some s ->
          began s = [] /\ pool s = [] /\ pc s <> Returned
  end.
Proof.
  apply (BoundedExec_without_workers 0 ["a"]).
  - lia.
  - discriminate.
Defined.

(** C9. A concurrency [n <= 0] is not clamped to 1: with [n = 0] and the
    one name "a" no execution hands "a" to [nameFunc], and with [n = -1]
    there is no execution at all. *)
Lemma BoundedExec_zero_dispatches_nothing :
  ~ (exists s0 sched s,
       BoundedExec_init 0 = Ok s0 /\ run 0 ["a"] sched s0 = Some s /\
       Permutation (began s) ["a"]) /\
  ~ (exists s0, BoundedExec_init (-1) = Ok s0).
Proof.
  split.
  - intros (s0 & sched & s & H0 & Hrun & Hperm).
    injection H0 as <-.
    destruct (zero_workers_states "a" [] sched _ (or_introl eq_refl) s Hrun) as [-> | ->];
      simpl in Hperm; apply Permutation_nil in Hperm; discriminate.
  - intros (s0 & H0). discriminate.
Qed.

(** * Further properties of the code *)

(** ** Lists and traces *)

Lemma Forall2_refl_on {A} (R : A -> A -> Prop) (P : A -> Prop) (l : list A) :
  (forall x, P x -> R x x) -> Forall P l -> Forall2 R l l.
Proof. intros HR. induction 1; constructor; auto. Qed.

Lemma Forall2_trans_gen {A} (R : A -> A -> Prop) :
  (forall x y z, R x y -> R y z -> R x z) ->
  forall l1 l2 l3, Forall2 R l1 l2 -> Forall2 R l2 l3 -> Forall2 R l1 l3.
Proof.
  intros HR l1. induction l1 as [| x l1 IH]; intros l2 l3 H12 H23;
    inversion H12; subst; inversion H23; subst; constructor; eauto.
Qed.

Lemma Forall2_update_gen {A} (R : A -> A -> Prop) (P : A -> Prop) (l : list A) :
  (forall x, P x -> R x x) ->
  forall i r r', Forall P l -> nth_error l i = Some r -> R r r' ->
  Forall2 R l (update l i r').
Proof.
  intros HR. induction l as [| x l IH]; intros [| i] r r' HP Hnth Hr;
    simpl in *; try discriminate; inversion HP; subst.
  - injection Hnth as ->. constructor; [assumption |].
    eapply Forall2_refl_on; eauto.
  - constructor; [auto |]. eapply IH; eassumption.
Qed.

Lemma nth_error_update_other {A} (l : list A) : forall i j x,
  i <> j -> nth_error (update l i x) j = nth_error l j.
Proof.
  induction l as [| y l IH]; intros [| i] [| j] x Hij; simpl; auto;
    try contradiction; try (apply IH; congruence).
Qed.

Lemma update_same {A} (l : list A) : forall i x,
  nth_error l i = Some x -> update l i x = l.
Proof.
  induction l as [| y l IH]; intros [| i] x H; simpl in *; try discriminate.
  - now injection H as ->.
  - f_equal. now apply IH.
Qed.

Lemma firstn_succ_nth {A} (l : list A) : forall k x,
  nth_error l k = Some x -> firstn (S k) l = (firstn k l ++ [x])%list.
Proof.
  induction l as [| y l IH]; intros [| k] x H; simpl in *; try discriminate.
  - now injection H as ->.
  - f_equal. now apply IH.
Qed.

Lemma rows_of_app t1 t2 : rows_of (t1 ++ t2) = (rows_of t1 ++ rows_of t2)%list.
Proof. unfold rows_of. apply flat_map_app. Qed.

Lemma flushes_app t1 t2 : flushes (t1 ++ t2) = (flushes t1 + flushes t2)%nat.
Proof. unfold flushes. now rewrite filter_app, length_app. Qed.

Lemma trace_emit e w : trace (emit e w) = (trace w ++ [e])%list.
Proof. reflexivity. Qed.

(** ** status.go: what a status query does to a view and to the trace *)

Lemma same_entry_redrawn_refl r : wf_view (view r) -> redrawn r r.
Proof. intros H. split; [now apply same_entry_refl | reflexivity]. Qed.

Lemma redrawn_trans r1 r2 r3 : redrawn r1 r2 -> redrawn r2 r3 -> redrawn r1 r3.
Proof.
  intros [S12 D12] [S23 D23]. split.
  - eapply same_entry_trans; eassumption.
  - intros H. specialize (D12 H). subst r2. auto.
Qed.

(** A status query of a well-formed view succeeds, keeps the variant, and
    paints and flushes nothing; on a view that is done it changes nothing
    and asks nothing. *)
Lemma View_readStatus_spec env v w :
  wf_view v ->
  exists v' st w' evs,
    View_readStatus env v w = Ok (v', st, w') /\
    kind_of v' = kind_of v /\ wf_view v' /\
    (elapsed_of v <> 0 -> v' = v /\ st = terminal (elapsed_of v) /\ w' = w) /\
    trace w' = (trace w ++ evs)%list /\ rows_of evs = [] /\ flushes evs = 0%nat.
Proof.
  destruct v as [s | fw]; intros Hwf; unfold View_readStatus;
    cbn [readStatus spinner_view fileWrapper_view elapsed_of].
  - simpl in Hwf. rewrite len_Wheel in Hwf.
    destruct (Z.eq_dec (s_elapsed s) 0) as [E | E].
    + rewrite (bind_Ok _ _ _ _ _ (spinner_readStatus_live env s w E Hwf)).
      eexists _, _, _, [EvNow]. split; [reflexivity |].
      split; [reflexivity |]. split.
      { simpl. rewrite len_Wheel. apply Z.mod_pos_bound. lia. }
      split; [intros H; contradiction |]. repeat split.
    + rewrite (bind_Ok _ _ _ _ _ (spinner_readStatus_done env s w E)).
      eexists _, _, _, []. split; [reflexivity |].
      split; [reflexivity |]. split; [simpl; now rewrite len_Wheel |].
      split; [intros _; repeat split |]. rewrite app_nil_r. repeat split.
  - destruct (Z.eq_dec (w_elapsed fw) 0) as [E | E].
    + destruct (w_f fw) as [fd |] eqn:Ef.
      * destruct (env_seek env fd (tick w)) as [pos | err] eqn:Es.
        -- rewrite (bind_Ok _ _ _ _ _ (fileWrapper_readStatus_position env fw fd pos w E Ef Es)).
           eexists _, _, _, [EvSeek (Some fd); EvNow]. split; [reflexivity |].
           split; [reflexivity |]. split; [exact I |].
           split; [intros H; contradiction |].
           split; [| split; reflexivity].
           cbn [fst snd]. rewrite !trace_emit, <- app_assoc. reflexivity.
        -- rewrite (bind_Ok _ _ _ _ _ (fileWrapper_readStatus_failure env fw fd err w E Ef Es)).
           eexists _, _, _, [EvSeek (Some fd); EvNow]. split; [reflexivity |].
           split; [reflexivity |]. split; [exact I |].
           split; [intros H; contradiction |].
           split; [| split; reflexivity].
           cbn [fst snd]. rewrite !trace_emit, <- app_assoc. reflexivity.
      * unfold bind, fileWrapper_readStatus. rewrite E, Ef.
        change (negb (0 =? 0)) with false. cbn beta iota.
        unfold bind, os_Seek. rewrite now_seconds_eq. unfold ret.
        eexists _, _, _, [EvSeek None; EvNow]. split; [reflexivity |].
        split; [reflexivity |]. split; [exact I |].
        split; [intros H; contradiction |].
        split; [| split; reflexivity].
        cbn [fst snd]. rewrite !trace_emit, <- app_assoc. reflexivity.
    + rewrite (bind_Ok _ _ _ _ _ (fileWrapper_readStatus_done env fw w E)).
      eexists _, _, _, []. split; [reflexivity |].
      split; [reflexivity |]. split; [exact I |].
      split; [intros _; repeat split |]. rewrite app_nil_r. repeat split.
Qed.

(** ** The registry: what a redraw paints and what it changes *)

Lemma Forall2_redrawn_keys rs rs' :
  Forall2 redrawn rs rs' -> map row_key rs' = map row_key rs.
Proof.
  induction 1 as [| r r' rs rs' [(N & E & _) _] _ IH]; simpl; [reflexivity |].
  rewrite IH. unfold row_key. now rewrite N, E.
Qed.

Lemma Forall2_redrawn_same rs rs' :
  Forall2 redrawn rs rs' -> Forall2 same_entry rs rs'.
Proof. induction 1 as [| r r' rs rs' [S _] _ IH]; constructor; assumption. Qed.

(** The rows of a redraw, entered at row [y] and index [ri] for [n]
    iterations: the entries [ri - 1] down to [ri - n] are queried once
    each and painted in this order on the rows from [y] on; no other entry
    is touched. *)
Lemma redraw_rows_spec env n : forall width y ri rs w,
  wf_readers rs -> Z.of_nat n <= ri <= length_Z rs ->
  exists rs' w' evs,
    redraw_rows env n width y ri rs w = Ok (rs', w') /\
    Forall2 redrawn rs rs' /\
    (forall j, (j + n < Z.to_nat ri)%nat \/ (Z.to_nat ri <= j)%nat ->
       nth_error rs' j = nth_error rs j) /\
    trace w' = (trace w ++ evs)%list /\
    rows_of evs = numbered y (firstn n (rev (firstn (Z.to_nat ri) (map row_key rs)))) /\
    flushes evs = 0%nat.
Proof.
  induction n as [| n IH]; intros width y ri rs w Hwf Hri.
  - exists rs, w, []. split; [reflexivity |]. split.
    { eapply Forall2_refl_on; [| exact Hwf].
      intros x Hx. now apply same_entry_redrawn_refl. }
    split; [reflexivity |]. split; [now rewrite app_nil_r |]. split; reflexivity.
  - cbn [redraw_rows].
    assert (Hin : 0 <= ri - 1 < length_Z rs) by lia.
    destruct (at_index_ok rs (ri - 1) w Hin) as (r & Hat & Hnth).
    rewrite (bind_Ok _ _ _ _ _ Hat).
    assert (Hr : wf_view (view r)).
    { unfold wf_readers in Hwf. rewrite Forall_forall in Hwf.
      apply Hwf. eapply nth_error_In; eassumption. }
    destruct (View_readStatus_spec env (view r) w Hr)
      as (v' & st & w1 & evs1 & Hq & Hk & Hv' & Hdone & Htr1 & Hrows1 & Hfl1).
    cbn [readStatus View_view]. rewrite (bind_Ok _ _ _ _ _ Hq). cbn [fst snd].
    unfold bind at 1, termbox at 1.
    set (es := match Error r with Some e => e | None => "" end).
    set (r' := mkReadInfo (Name r) v' (Error r)).
    set (rs1 := update rs (Z.to_nat (ri - 1)) r').
    assert (Hrr' : redrawn r r').
    { split; [repeat split; assumption |].
      intros Hd. destruct (Hdone Hd) as (-> & _ & _). unfold r'. now destruct r. }
    assert (H1 : Forall2 redrawn rs rs1).
    { apply Forall2_update_gen with (P := fun x => wf_view (view x)) (r := r); auto.
      intros x Hx. now apply same_entry_redrawn_refl. }
    assert (Hwf1 : wf_readers rs1).
    { eapply Forall2_same_entry_wf. apply Forall2_redrawn_same. exact H1. }
    destruct (IH width (y + 1) (ri - 1) rs1 (emit (EvRow width y st (Name r) es) w1) Hwf1)
      as (rs' & w' & evs2 & Hrun & H2 & Hsame & Htr2 & Hrows2 & Hfl2).
    { rewrite (Forall2_length_Z _ _ _ H1). lia. }
    exists rs', w', (evs1 ++ EvRow width y st (Name r) es :: evs2)%list.
    split; [exact Hrun |]. split.
    { eapply Forall2_trans_gen; [exact redrawn_trans | exact H1 | exact H2]. }
    assert (Eri : Z.to_nat ri = S (Z.to_nat (ri - 1))) by lia.
    split; [| split; [| split]].
    + intros j Hj. rewrite Hsame by lia. unfold rs1.
      apply nth_error_update_other. lia.
    + rewrite Htr2, trace_emit, Htr1, <- !app_assoc. reflexivity.
    + rewrite rows_of_app, Hrows1. cbn [app rows_of flat_map].
      fold (rows_of evs2). rewrite Hrows2, (Forall2_redrawn_keys _ _ H1).
      rewrite Eri.
      rewrite (firstn_succ_nth (map row_key rs) (Z.to_nat (ri - 1)) (row_key r))
        by (now apply map_nth_error).
      rewrite rev_app_distr. reflexivity.
    + rewrite flushes_app, Hfl1. unfold flushes in *. simpl. exact Hfl2.
Qed.

(** One redraw, on a terminal of [h] rows. *)
Lemma redrawLocked_spec env v w :
  wf_readers (readers v) ->
  let h := snd (env_size env (tick w)) in
  exists rs' w' evs,
    redrawLocked env v w = Ok (set_readers v rs', w') /\
    Forall2 redrawn (readers v) rs' /\
    (forall j, (j + rows_drawn h (readers v) < List.length (readers v))%nat ->
       nth_error rs' j = nth_error (readers v) j) /\
    trace w' = (trace w ++ evs)%list /\
    rows_of evs =
      numbered 1 (firstn (rows_drawn h (readers v)) (rev (map row_key (readers v)))) /\
    flushes evs = 1%nat.
Proof.
  intros Hwf h. unfold redrawLocked.
  unfold bind at 1, termbox_Size at 1. unfold bind at 1, termbox at 1.
  rewrite (bind_Ok _ _ _ _ _ (now_seconds_eq env _)).
  unfold bind at 1, termbox at 1. cbn [fst snd]. fold h.
  match goal with
  | |- context [bind (redraw_rows env ?n ?wd ?y ?ri ?rs) _ ?w0] =>
      destruct (redraw_rows_spec env n wd y ri rs w0 Hwf)
        as (rs' & w' & evs & Hrun & Hred & Hsame & Htr & Hrows & Hfl)
  end.
  { pose proof (length_Z_nonneg (readers v)).
    destruct (length_Z (readers v) + 1 >? h) eqn:E; [| lia].
    apply Z.gtb_lt in E. lia. }
  rewrite (bind_Ok _ _ _ _ _ Hrun).
  exists rs', (emit EvFlush w'),
    ([EvSize; EvClear; EvNow;
      EvHeader (fst (env_size env (tick w)))
        (Sub (Truncate (env_now env (tick (emit EvClear (emit EvSize w)))) Second)
             (started v))] ++ evs ++ [EvFlush])%list.
  split; [reflexivity |]. split; [exact Hred |].
  assert (Elen : Z.to_nat (length_Z (readers v)) = List.length (readers v))
    by (unfold length_Z; lia).
  split; [| split; [| split]].
  - intros j Hj. apply Hsame. left. fold (rows_drawn h (readers v)). lia.
  - rewrite trace_emit, Htr, !trace_emit. rewrite <- !app_assoc. reflexivity.
  - rewrite !rows_of_app, Hrows. cbn [rows_of flat_map app]. rewrite app_nil_r.
    rewrite Elen.
    replace (firstn (List.length (readers v)) (map row_key (readers v)))
      with (map row_key (readers v))
      by (symmetry; apply firstn_all2; rewrite length_map; lia).
    reflexivity.
  - rewrite !flushes_app, Hfl. reflexivity.
Qed.

Lemma numbered_length {A} (l : list A) : forall y, List.length (numbered y l) = List.length l.
Proof. induction l as [| x l IH]; intros y; simpl; [| rewrite IH]; reflexivity. Qed.

Lemma rows_drawn_min h rs :
  rows_drawn h rs = Nat.min (List.length rs) (Z.to_nat (h - 1)).
Proof.
  unfold rows_drawn, length_Z.
  destruct (Z.of_nat (List.length rs) + 1 >? h) eqn:E.
  - apply Z.gtb_lt in E. lia.
  - assert (Z.of_nat (List.length rs) + 1 <= h) by (rewrite Z.gtb_ltb in E; apply Z.ltb_ge in E; lia).
    lia.
Qed.

Lemma Forall2_nth_error {A} (R : A -> A -> Prop) (l l' : list A) :
  Forall2 R l l' ->
  forall j r, nth_error l j = Some r -> exists r', nth_error l' j = Some r' /\ R r r'.
Proof.
  induction 1 as [| x x' l l' Hx _ IH]; intros [| j] r H; simpl in *; try discriminate.
  - injection H as <-. now exists x'.
  - now apply IH.
Qed.

(** X1. A redraw of a well-formed registry succeeds, paints one row per
    entry from the most recently added one down, on the rows 1, 2, ... of
    the terminal, with the name and the error text of the entry; it paints
    as many rows as there are entries, and at most the height of the
    terminal less the header row; it flushes the terminal exactly once. *)
Theorem redraw_paints_newest_first (env : Env) (v : Viz) (w : World) :
  wf_readers (readers v) ->
  exists rs' w' evs,
    redrawLocked env v w = Ok (set_readers v rs', w') /\
    trace w' = (trace w ++ evs)%list /\
    rows_of evs =
      numbered 1 (firstn (rows_drawn (snd (env_size env (tick w))) (readers v))
                         (rev (map row_key (readers v)))) /\
    List.length (rows_of evs) =
      Nat.min (List.length (readers v)) (Z.to_nat (snd (env_size env (tick w)) - 1)) /\
    flushes evs = 1%nat.
Proof.
  intros Hwf.
  destruct (redrawLocked_spec env v w Hwf) as (rs' & w' & evs & Hrun & _ & _ & Htr & Hrows & Hfl).
  exists rs', w', evs. repeat split; auto.
  rewrite Hrows, numbered_length, length_firstn, length_rev, length_map, rows_drawn_min.
  lia.
Qed.

Lemma redraw_paints_newest_first_witness :
  exists rs' w' evs,
    redrawLocked quick_env
      (mkViz (Some mkMutex)
         [mkReadInfo "a" (VSpinner (mkSpinner 0 0 0)) None;
          mkReadInfo "b" (VSpinner (mkSpinner 0 0 0)) (Some "bad")] 0 0) world0
    = Ok (set_readers
            (mkViz (Some mkMutex)
               [mkReadInfo "a" (VSpinner (mkSpinner 0 0 0)) None;
                mkReadInfo "b" (VSpinner (mkSpinner 0 0 0)) (Some "bad")] 0 0) rs', w') /\
    trace w' = (trace world0 ++ evs)%list /\
    rows_of evs = [(1, ("b", "bad")); (2, ("a", ""))] /\
    List.length (rows_of evs) = 2%nat /\
    flushes evs = 1%nat.
Proof.
  apply (redraw_paints_newest_first quick_env
           (mkViz (Some mkMutex)
              [mkReadInfo "a" (VSpinner (mkSpinner 0 0 0)) None;
               mkReadInfo "b" (VSpinner (mkSpinner 0 0 0)) (Some "bad")] 0 0) world0).
  constructor; [| constructor; [| constructor]]; simpl; rewrite len_Wheel; lia.
Defined.

(** X2. A redraw keeps the number and order of the entries, and of every
    entry the name, the error and the variant of its view. An entry that
    is done is left exactly as it is, and so is every entry that does not
    fit on the terminal: it is not queried. *)
Theorem redraw_keeps_entries (env : Env) (v : Viz) (w : World) :
  wf_readers (readers v) ->
  exists rs' w',
    redrawLocked env v w = Ok (set_readers v rs', w') /\
    map Name rs' = map Name (readers v) /\
    map Error rs' = map Error (readers v) /\
    map (fun r => kind_of (view r)) rs' = map (fun r => kind_of (view r)) (readers v) /\
    wf_readers rs' /\
    (forall j r, nth_error (readers v) j = Some r -> elapsed_of (view r) <> 0 ->
       nth_error rs' j = Some r) /\
    (forall j,
       (j + rows_drawn (snd (env_size env (tick w))) (readers v)
        < List.length (readers v))%nat ->
       nth_error rs' j = nth_error (readers v) j).
Proof.
  intros Hwf.
  destruct (redrawLocked_spec env v w Hwf) as (rs' & w' & evs & Hrun & Hred & Hoff & _).
  pose proof (Forall2_redrawn_same _ _ Hred) as Hsame.
  destruct (Forall2_same_entry_maps _ _ Hsame) as (HN & HE & HK).
  exists rs', w'. repeat split; auto.
  - eapply Forall2_same_entry_wf; eassumption.
  - intros j r Hj Hdone.
    destruct (Forall2_nth_error _ _ _ Hred j r Hj) as (r' & Hj' & _ & Hkeep).
    rewrite Hj'. f_equal. now apply Hkeep.
Qed.

Lemma redraw_keeps_entries_witness :
  exists rs' w',
    redrawLocked quick_env
      (mkViz (Some mkMutex)
         [mkReadInfo "a" (VSpinner (mkSpinner 0 0 0)) None;
          mkReadInfo "b" (VSpinner (mkSpinner 1 0 Second)) None] 0 0) world0
    = Ok (set_readers
            (mkViz (Some mkMutex)
               [mkReadInfo "a" (VSpinner (mkSpinner 0 0 0)) None;
                mkReadInfo "b" (VSpinner (mkSpinner 1 0 Second)) None] 0 0) rs', w') /\
    map Name rs' = ["a"; "b"] /\
    map Error rs' = [None; None] /\
    map (fun r => kind_of (view r)) rs' = [Spinner; Spinner] /\
    wf_readers rs' /\
    (forall j r,
       nth_error [mkReadInfo "a" (VSpinner (mkSpinner 0 0 0)) None;
                  mkReadInfo "b" (VSpinner (mkSpinner 1 0 Second)) None] j = Some r ->
       elapsed_of (view r) <> 0 -> nth_error rs' j = Some r) /\
    (forall j,
       (j + 2 < 2)%nat ->
       nth_error rs' j =
       nth_error [mkReadInfo "a" (VSpinner (mkSpinner 0 0 0)) None;
                  mkReadInfo "b" (VSpinner (mkSpinner 1 0 Second)) None] j).
Proof.
  apply (redraw_keeps_entries quick_env
           (mkViz (Some mkMutex)
              [mkReadInfo "a" (VSpinner (mkSpinner 0 0 0)) None;
               mkReadInfo "b" (VSpinner (mkSpinner 1 0 Second)) None] 0 0) world0).
  constructor; [| constructor; [| constructor]]; simpl; rewrite len_Wheel; lia.
Defined.

(** ** The goroutines of Start, and Stop *)

Lemma Lock_started v w : mu v <> None -> Lock v w = Ok (tt, w).
Proof. intros H. unfold Lock. destruct (mu v); [reflexivity | contradiction]. Qed.

(** [k] ticks of [run]: [k] redraws, after which the loop goes on with
    what it receives next. *)
Lemma run_loop_ticks env k : forall v w sel,
  mu v <> None -> wf_readers (readers v) ->
  exists rs' w' evs,
    run_loop env (repeat Tick k ++ sel) v w = run_loop env sel (set_readers v rs') w' /\
    Forall2 redrawn (readers v) rs' /\
    trace w' = (trace w ++ evs)%list /\ flushes evs = k.
Proof.
  induction k as [| k IH]; intros v w sel Hmu Hwf.
  - exists (readers v), w, []. split; [now destruct v |]. split.
    { eapply Forall2_refl_on; [| exact Hwf]. intros x Hx. now apply same_entry_redrawn_refl. }
    split; [now rewrite app_nil_r | reflexivity].
  - cbn [repeat app run_loop].
    rewrite (bind_Ok _ _ _ _ _ (Lock_started v w Hmu)).
    destruct (redrawLocked_spec env v w Hwf) as (rs1 & w1 & evs1 & Hrun & Hred & _ & Htr & _ & Hfl).
    rewrite (bind_Ok _ _ _ _ _ Hrun).
    assert (Hwf1 : wf_readers (readers (set_readers v rs1))).
    { simpl. eapply Forall2_same_entry_wf. apply Forall2_redrawn_same. exact Hred. }
    destruct (IH (set_readers v rs1) w1 sel Hmu Hwf1) as (rs' & w' & evs & Hgo & Hred' & Htr' & Hfl').
    exists rs', w', (evs1 ++ evs)%list. split; [exact Hgo |]. split.
    { eapply Forall2_trans_gen; [exact redrawn_trans | exact Hred | exact Hred']. }
    split.
    + rewrite Htr', Htr, <- app_assoc. reflexivity.
    + rewrite flushes_app, Hfl, Hfl'. reflexivity.
Qed.

(** X3. [run] on a started registry with a positive refresh interval
    redraws once for every tick it receives before a value arrives on the
    quit channel, and then stops: whatever follows is not received. On the
    value 0 it stops the ticker, interrupts and closes the terminal and
    returns; on any other value it stops the ticker, closes the terminal
    without the interrupt and exits the process with that value. The
    entries keep their names throughout. *)
Theorem run_redraws_until_quit
    (env : Env) (k : nat) (q : Z) (rest : list selected) (v : Viz) (w : World) :
  0 < interval v -> mu v <> None -> wf_readers (readers v) ->
  exists rs' w' evs,
    Viz_run env (repeat Tick k ++ Quit q :: rest) v w =
      Ok (set_readers v rs',
          (if q =? 0 then [TickerStop; termbox_Interrupt; termbox_Close]
           else [TickerStop; termbox_Close; os_Exit q]),
          (if q =? 0 then RunReturned else ProcessExited q),
          w') /\
    map Name rs' = map Name (readers v) /\
    trace w' = (trace w ++ evs)%list /\
    flushes evs = k.
Proof.
  intros Hint Hmu Hwf. unfold Viz_run.
  destruct (Z.leb_spec (interval v) 0) as [Hle | _]; [lia |].
  destruct (run_loop_ticks env k v w (Quit q :: rest) Hmu Hwf)
    as (rs' & w' & evs & Hgo & Hred & Htr & Hfl).
  exists rs', w', evs. rewrite Hgo. split.
  - cbn [run_loop]. destruct (q =? 0); reflexivity.
  - split; [| split; assumption].
    apply Forall2_redrawn_same in Hred.
    now destruct (Forall2_same_entry_maps _ _ Hred) as (HN & _).
Qed.

Lemma run_redraws_until_quit_witness :
  exists rs' w' evs,
    Viz_run quick_env (repeat Tick 2 ++ Quit 0 :: [Tick; Quit 1])
      (mkViz (Some mkMutex) [mkReadInfo "a" (VSpinner (mkSpinner 0 0 0)) None] Second 0)
      world0 =
      Ok (set_readers
            (mkViz (Some mkMutex) [mkReadInfo "a" (VSpinner (mkSpinner 0 0 0)) None] Second 0)
            rs',
          [TickerStop; termbox_Interrupt; termbox_Close], RunReturned, w') /\
    map Name rs' = ["a"] /\
    trace w' = (trace world0 ++ evs)%list /\
    flushes evs = 2%nat.
Proof.
  apply (run_redraws_until_quit quick_env 2 0 [Tick; Quit 1]
           (mkViz (Some mkMutex) [mkReadInfo "a" (VSpinner (mkSpinner 0 0 0)) None] Second 0)
           world0).
  - reflexivity.
  - simpl. discriminate.
  - constructor; [| constructor]. simpl. rewrite len_Wheel. lia.
Defined.

Lemma watch_keys_skip pre : forall evs,
  Forall (fun e => ev_Type e <> EventInterrupt /\ ev_Key e <> KeyCtrlC) pre ->
  watch_keys (pre ++ evs) = watch_keys evs.
Proof.
  induction pre as [| e pre IH]; intros evs Hpre; [reflexivity |].
  inversion Hpre as [| ? ? [Ht Hk] Hrest]; subst. cbn [app watch_keys].
  apply Z.eqb_neq in Hk. rewrite Hk.
  destruct (ev_Type e); try (now apply IH). contradiction.
Qed.

Lemma watch_keys_sends_one evs : forall q, watch_keys evs = SentQuit q -> q = 1.
Proof.
  induction evs as [| e evs IH]; intros q; cbn [watch_keys]; [discriminate |].
  destruct (ev_Type e), (ev_Key e =? KeyCtrlC); try discriminate; auto;
    intros H; now injection H as <-.
Qed.

(** X4. The key watcher passes over the events that are neither the
    interrupt nor a Ctrl-C, and the first event that is one of the two
    decides: on the interrupt it returns without sending, also when that
    event carries the key code of Ctrl-C; on a Ctrl-C it sends 1 on the
    quit channel and returns. Without such an event it goes on polling. It
    never sends another value than 1. *)
Theorem watcher_first_interrupt_or_CtrlC_decides
    (pre : list termbox_Event) (ev : termbox_Event) (post : list termbox_Event) :
  Forall (fun e => ev_Type e <> EventInterrupt /\ ev_Key e <> KeyCtrlC) pre ->
  watch_keys pre = Polling /\
  (ev_Type ev = EventInterrupt -> watch_keys (pre ++ ev :: post) = WatcherReturned) /\
  (ev_Type ev <> EventInterrupt -> ev_Key ev = KeyCtrlC ->
   watch_keys (pre ++ ev :: post) = SentQuit 1) /\
  (forall evs q, watch_keys evs = SentQuit q -> q = 1).
Proof.
  intros Hpre. split; [| split; [| split]].
  - rewrite <- (app_nil_r pre). now rewrite watch_keys_skip.
  - intros Ht. rewrite watch_keys_skip by assumption. cbn [watch_keys]. now rewrite Ht.
  - intros Ht Hk. rewrite watch_keys_skip by assumption. cbn [watch_keys].
    rewrite Hk, Z.eqb_refl. destruct (ev_Type ev); try reflexivity. contradiction.
  - exact watch_keys_sends_one.
Qed.

Lemma watcher_first_interrupt_or_CtrlC_decides_witness :
  watch_keys [mkEvent EventKey 65; mkEvent EventResize 0] = Polling /\
  (ev_Type (mkEvent EventKey 3) = EventInterrupt ->
   watch_keys ([mkEvent EventKey 65; mkEvent EventResize 0]
               ++ mkEvent EventKey 3 :: [mkEvent EventInterrupt 0]) = WatcherReturned) /\
  (ev_Type (mkEvent EventKey 3) <> EventInterrupt ->
   ev_Key (mkEvent EventKey 3) = KeyCtrlC ->
   watch_keys ([mkEvent EventKey 65; mkEvent EventResize 0]
               ++ mkEvent EventKey 3 :: [mkEvent EventInterrupt 0]) = SentQuit 1) /\
  (forall evs q, watch_keys evs = SentQuit q -> q = 1).
Proof.
  apply (watcher_first_interrupt_or_CtrlC_decides
           [mkEvent EventKey 65; mkEvent EventResize 0]
           (mkEvent EventKey 3) [mkEvent EventInterrupt 0]).
  repeat constructor; simpl; discriminate.
Defined.

(** X5. The two ways out of the display. What [Stop] sends makes [run]
    interrupt and close the terminal and return, so the caller goes on
    after [Stop] has slept for the refresh interval; what the key watcher
    sends makes [run] close the terminal and exit the process with status
    1, without the interrupt. *)
Theorem Stop_returns_and_CtrlC_exits
    (env : Env) (v : Viz) (rest : list selected) (w : World) :
  0 < interval v ->
  Viz_run env (Quit (fst (Stop v)) :: rest) v w =
    Ok (v, [TickerStop; termbox_Interrupt; termbox_Close], RunReturned, w) /\
  snd (Stop v) = interval v /\
  (forall evs q, watch_keys evs = SentQuit q ->
     Viz_run env (Quit q :: rest) v w =
       Ok (v, [TickerStop; termbox_Close; os_Exit 1], ProcessExited 1, w)).
Proof.
  intros Hint. unfold Viz_run.
  destruct (Z.leb_spec (interval v) 0) as [Hle | _]; [lia |].
  split; [reflexivity |]. split; [reflexivity |].
  intros evs q Hq. apply watch_keys_sends_one in Hq. subst q. reflexivity.
Qed.

Lemma Stop_returns_and_CtrlC_exits_witness :
  Viz_run quick_env (Quit (fst (Stop (mkViz (Some mkMutex) [] Second 0))) :: [Tick])
          (mkViz (Some mkMutex) [] Second 0) world0 =
    Ok (mkViz (Some mkMutex) [] Second 0,
        [TickerStop; termbox_Interrupt; termbox_Close], RunReturned, world0) /\
  snd (Stop (mkViz (Some mkMutex) [] Second 0)) = Second /\
  (forall evs q, watch_keys evs = SentQuit q ->
     Viz_run quick_env (Quit q :: [Tick]) (mkViz (Some mkMutex) [] Second 0) world0 =
       Ok (mkViz (Some mkMutex) [] Second 0,
           [TickerStop; termbox_Close; os_Exit 1], ProcessExited 1, world0)).
Proof.
  apply (Stop_returns_and_CtrlC_exits quick_env (mkViz (Some mkMutex) [] Second 0)
           [Tick] world0).
  reflexivity.
Defined.

(** ** The registry: Complete, Remove and calls in a row *)

(** [done] on a view never fails: it reads the clock once, keeps variant
    and start, and sets the elapsed time, which a spinner clamps. *)
Lemma View_done_total env v w :
  exists vw,
    View_done env v w = Ok (vw, emit EvNow w) /\
    kind_of vw = kind_of v /\ start_of vw = start_of v /\
    (wf_view v -> wf_view vw) /\
    elapsed_of vw =
      (let d := Sub (Truncate (env_now env (tick w)) Second) (start_of v) in
       match kind_of v with
       | Spinner => if d =? 0 then Second else d
       | OffsetTracker => d
       end).
Proof.
  destruct v as [s | fw]; unfold View_done; cbn [done spinner_view fileWrapper_view].
  - rewrite (bind_Ok _ _ _ _ _ (spinner_done_eq env s w)).
    eexists. split; [reflexivity |]. split; [reflexivity |]. split; [reflexivity |].
    split; [intros H; exact H | reflexivity].
  - rewrite (bind_Ok _ _ _ _ _ (fileWrapper_done_eq env fw w)).
    eexists. split; [reflexivity |]. repeat split.
Qed.

(** A view that is done answers every query with the terminal status. *)
Lemma View_readStatus_done env v w :
  elapsed_of v <> 0 ->
  View_readStatus env v w = Ok (v, terminal (elapsed_of v), w).
Proof.
  destruct v as [s | fw]; intros H; unfold View_readStatus;
    cbn [readStatus spinner_view fileWrapper_view elapsed_of] in *.
  - now rewrite (bind_Ok _ _ _ _ _ (spinner_readStatus_done env s w H)).
  - now rewrite (bind_Ok _ _ _ _ _ (fileWrapper_readStatus_done env fw w H)).
Qed.

(** The entries split at the first one of a given name, if there is one. *)
Lemma first_match_split name (rs : list readInfo) :
  Forall (fun r => Name r <> name) rs \/
  exists pre x post,
    rs = (pre ++ x :: post)%list /\
    Forall (fun r => Name r <> name) pre /\ Name x = name.
Proof.
  induction rs as [| r rs IH]; [left; constructor |].
  destruct (string_dec (Name r) name) as [E | E].
  - right. exists [], r, rs. repeat split; auto.
  - destruct IH as [IH | (pre & x & post & -> & Hpre & Hx)].
    + left. now constructor.
    + right. exists (r :: pre), x, post. repeat split; auto.
Qed.

(** X6. On a started registry [Complete] and [Remove] of a name no entry
    has change nothing and do not fail: the registry is returned as it
    is, the clock is not read and nothing is painted. *)
Theorem unknown_name_changes_nothing
    (env : Env) (name : string) (err : option error) (v : Viz) (w : World) :
  mu v <> None ->
  Forall (fun r => Name r <> name) (readers v) ->
  Complete env name err v w = Ok (v, w) /\ Remove name v w = Ok (v, w).
Proof.
  intros Hmu Hno. split.
  - now apply Complete_not_found.
  - now apply Remove_not_found.
Qed.

Lemma unknown_name_changes_nothing_witness :
  Complete quick_env "z" (Some "late")
    (mkViz (Some mkMutex) [mkReadInfo "a" (VSpinner (mkSpinner 0 0 0)) None] 0 0) world0
  = Ok (mkViz (Some mkMutex) [mkReadInfo "a" (VSpinner (mkSpinner 0 0 0)) None] 0 0, world0) /\
  Remove "z"
    (mkViz (Some mkMutex) [mkReadInfo "a" (VSpinner (mkSpinner 0 0 0)) None] 0 0) world0
  = Ok (mkViz (Some mkMutex) [mkReadInfo "a" (VSpinner (mkSpinner 0 0 0)) None] 0 0, world0).
Proof.
  apply (unknown_name_changes_nothing quick_env "z" (Some "late")
           (mkViz (Some mkMutex) [mkReadInfo "a" (VSpinner (mkSpinner 0 0 0)) None] 0 0)
           world0).
  - simpl. discriminate.
  - constructor; [simpl; discriminate | constructor].
Defined.

(** X7. On a started registry [Remove] of a name whose first entry is not
    the last entry deletes that one entry: the entries before it and
    behind it stay, in their order, later entries of the same name
    included, and nothing else of the registry changes. *)
Theorem Remove_deletes_first_match_before_last
    (name : string) (v : Viz) (w : World)
    (pre : list readInfo) (x y : readInfo) (post : list readInfo) :
  mu v <> None ->
  readers v = (pre ++ x :: y :: post)%list ->
  Forall (fun r => Name r <> name) pre -> Name x = name ->
  Remove name v w = Ok (mkViz (mu v) (pre ++ y :: post) (interval v) (started v), w).
Proof. intros Hmu Hrs Hpre Hx. now apply (Remove_not_last name v w pre x y post). Qed.

Lemma Remove_deletes_first_match_before_last_witness :
  Remove "a"
    (mkViz (Some mkMutex)
       [mkReadInfo "a" (VSpinner (mkSpinner 0 0 0)) None;
        mkReadInfo "b" (VSpinner (mkSpinner 0 0 0)) None;
        mkReadInfo "a" (VSpinner (mkSpinner 2 0 0)) None] 0 0) world0
  = Ok (mkViz (Some mkMutex)
          [mkReadInfo "b" (VSpinner (mkSpinner 0 0 0)) None;
           mkReadInfo "a" (VSpinner (mkSpinner 2 0 0)) None] 0 0, world0).
Proof.
  apply (Remove_deletes_first_match_before_last "a"
           (mkViz (Some mkMutex)
              [mkReadInfo "a" (VSpinner (mkSpinner 0 0 0)) None;
               mkReadInfo "b" (VSpinner (mkSpinner 0 0 0)) None;
               mkReadInfo "a" (VSpinner (mkSpinner 2 0 0)) None] 0 0) world0
           [] (mkReadInfo "a" (VSpinner (mkSpinner 0 0 0)) None)
           (mkReadInfo "b" (VSpinner (mkSpinner 0 0 0)) None)
           [mkReadInfo "a" (VSpinner (mkSpinner 2 0 0)) None]).
  - simpl. discriminate.
  - reflexivity.
  - constructor.
  - reflexivity.
Defined.

(** X8. On a registry that was not started the mutex is nil: [Add],
    [Complete] and [Remove] panic with a nil dereference at the lock,
    whatever their arguments. *)
Theorem calls_before_Start_panic
    (env : Env) (name : string) (rdr : reader) (err : option error)
    (v : Viz) (w : World) :
  mu v = None ->
  Add env name rdr v w = Panic NilDereference /\
  Complete env name err v w = Panic NilDereference /\
  Remove name v w = Panic NilDereference.
Proof.
  intros Hmu. split; [| split].
  - destruct (Add_switch_total env name rdr w) as (info & w1 & Hinfo & _).
    unfold Add. rewrite (bind_Ok _ _ _ _ _ Hinfo).
    unfold bind, Lock. now rewrite Hmu.
  - unfold Complete, bind, Lock. now rewrite Hmu.
  - unfold Remove, bind, Lock. now rewrite Hmu.
Qed.

Lemma calls_before_Start_panic_witness :
  Add quick_env "a" GzipReader zeroViz world0 = Panic NilDereference /\
  Complete quick_env "a" None zeroViz world0 = Panic NilDereference /\
  Remove "a" zeroViz world0 = Panic NilDereference.
Proof.
  apply (calls_before_Start_panic quick_env "a" GzipReader None zeroViz world0).
  reflexivity.
Defined.

(** X9. On a started registry [Complete] of a name never fails. At the
    first entry of that name it reads the clock once, marks the view done
    and stores the given error in place of the one the entry had, also
    when the given error is nil; the view keeps its variant and its start
    time, and all other entries, later ones of the same name included, are
    as before. *)
Theorem Complete_marks_first_match
    (env : Env) (name : string) (err : option error) (v : Viz) (w : World)
    (pre : list readInfo) (x : readInfo) (post : list readInfo) :
  mu v <> None ->
  readers v = (pre ++ x :: post)%list ->
  Forall (fun r => Name r <> name) pre -> Name x = name ->
  exists vw,
    Complete env name err v w =
      Ok (mkViz (mu v) (pre ++ mkReadInfo name vw err :: post) (interval v) (started v),
          emit EvNow w) /\
    kind_of vw = kind_of (view x) /\ start_of vw = start_of (view x) /\
    elapsed_of vw =
      (let d := Sub (Truncate (env_now env (tick w)) Second) (start_of (view x)) in
       match kind_of (view x) with
       | Spinner => if d =? 0 then Second else d
       | OffsetTracker => d
       end).
Proof.
  intros Hmu Hrs Hpre Hx.
  destruct (View_done_total env (view x) w) as (vw & Hdone & Hk & Hs & _ & He).
  exists vw. split; [| auto].
  now apply (Complete_first_match env name err v w pre x post vw (emit EvNow w)).
Qed.

Lemma Complete_marks_first_match_witness :
  exists vw,
    Complete quick_env "a" None
      (mkViz (Some mkMutex)
         [mkReadInfo "a" (VSpinner (mkSpinner 1 5000000000 0)) (Some gzipError);
          mkReadInfo "a" (VSpinner (mkSpinner 2 0 0)) None] 0 0) world0 =
      Ok (mkViz (Some mkMutex)
            [mkReadInfo "a" vw None; mkReadInfo "a" (VSpinner (mkSpinner 2 0 0)) None] 0 0,
          emit EvNow world0) /\
    kind_of vw = Spinner /\ start_of vw = 5000000000 /\
    elapsed_of vw = Second.
Proof.
  apply (Complete_marks_first_match quick_env "a" None
           (mkViz (Some mkMutex)
              [mkReadInfo "a" (VSpinner (mkSpinner 1 5000000000 0)) (Some gzipError);
               mkReadInfo "a" (VSpinner (mkSpinner 2 0 0)) None] 0 0) world0
           [] (mkReadInfo "a" (VSpinner (mkSpinner 1 5000000000 0)) (Some gzipError))
           [mkReadInfo "a" (VSpinner (mkSpinner 2 0 0)) None]).
  - simpl. discriminate.
  - reflexivity.
  - constructor.
  - reflexivity.
Defined.

(** X10. [Complete] makes the first entry of the name terminal whenever
    its view is a Spinner, or the call happens in a later second than the
    one the view was made in: from then on every status query of the entry
    answers the frozen elapsed time and 100%, changes nothing and asks
    nothing of clock or file. *)
Theorem Complete_freezes_entry
    (env : Env) (name : string) (err : option error) (v : Viz) (w : World)
    (pre : list readInfo) (x : readInfo) (post : list readInfo) :
  mu v <> None ->
  readers v = (pre ++ x :: post)%list ->
  Forall (fun r => Name r <> name) pre -> Name x = name ->
  kind_of (view x) = Spinner \/
    Truncate (env_now env (tick w)) Second <> start_of (view x) ->
  exists vw w',
    Complete env name err v w =
      Ok (set_readers v (pre ++ mkReadInfo name vw err :: post), w') /\
    elapsed_of vw <> 0 /\
    forall w2, View_readStatus env vw w2 = Ok (vw, terminal (elapsed_of vw), w2).
Proof.
  intros Hmu Hrs Hpre Hx Hlate.
  destruct (View_done_total env (view x) w) as (vw & Hdone & Hk & Hs & _ & He).
  exists vw, (emit EvNow w).
  assert (Hnz : elapsed_of vw <> 0).
  { rewrite He. cbv zeta.
    destruct (kind_of (view x)) eqn:Ek.
    - destruct (Z.eqb_spec (Sub (Truncate (env_now env (tick w)) Second) (start_of (view x))) 0);
        [discriminate | assumption].
    - destruct Hlate as [Hl | Hl]; [discriminate |].
      intros E. apply (proj1 (Sub_zero_iff _ _)) in E. contradiction. }
  split; [now apply (Complete_first_match env name err v w pre x post vw (emit EvNow w)) |].
  split; [exact Hnz |]. intros w2. now apply View_readStatus_done.
Qed.

Lemma Complete_freezes_entry_witness :
  exists vw w',
    Complete quick_env "f" None
      (mkViz (Some mkMutex)
         [mkReadInfo "f" (VFile (mkFileWrapper (float64_of_int 10) (Some 3%nat) 2000000000 0))
                     None] 0 0) world0 =
      Ok (set_readers
            (mkViz (Some mkMutex)
               [mkReadInfo "f"
                  (VFile (mkFileWrapper (float64_of_int 10) (Some 3%nat) 2000000000 0))
                  None] 0 0)
            ([] ++ [mkReadInfo "f" vw None]), w') /\
    elapsed_of vw <> 0 /\
    forall w2, View_readStatus quick_env vw w2 = Ok (vw, terminal (elapsed_of vw), w2).
Proof.
  apply (Complete_freezes_entry quick_env "f" None
           (mkViz (Some mkMutex)
              [mkReadInfo "f"
                 (VFile (mkFileWrapper (float64_of_int 10) (Some 3%nat) 2000000000 0))
                 None] 0 0) world0
           [] (mkReadInfo "f"
                 (VFile (mkFileWrapper (float64_of_int 10) (Some 3%nat) 2000000000 0)) None)
           []).
  - simpl. discriminate.
  - reflexivity.
  - constructor.
  - reflexivity.
  - right. simpl. discriminate.
Defined.

Lemma Add_names env name rdr v w :
  mu v <> None -> wf_readers (readers v) ->
  exists v' w' info,
    Add env name rdr v w = Ok (v', w') /\
    mu v' = mu v /\ Name info = name /\
    Forall2 same_entry (readers v ++ [info]) (readers v') /\
    map Name (readers v') = (map Name (readers v) ++ [name])%list /\
    wf_readers (readers v').
Proof.
  intros Hmu Hwf.
  destruct (Add_switch_total env name rdr w) as (info & w1 & Hinfo & Hname & Hview & _).
  unfold Add. rewrite (bind_Ok _ _ _ _ _ Hinfo).
  rewrite (bind_Ok _ _ _ _ _ (Lock_started v w1 Hmu)).
  assert (Hwf' : wf_readers (readers (set_readers v (readers v ++ [info])))).
  { simpl. apply Forall_app. split; [exact Hwf | now constructor]. }
  destruct (redrawLocked_total env _ w1 Hwf') as (rs' & w' & Hdraw & Hsame).
  rewrite Hdraw. simpl readers in Hsame.
  destruct (Forall2_same_entry_maps _ _ Hsame) as (HN & _).
  eexists _, w', info. split; [reflexivity |]. simpl.
  split; [reflexivity |]. split; [exact Hname |]. split; [exact Hsame |].
  split; [now rewrite HN, map_app, <- Hname |].
  eapply Forall2_same_entry_wf; eassumption.
Qed.

Lemma Complete_total env name err v w :
  mu v <> None ->
  exists v' w',
    Complete env name err v w = Ok (v', w') /\
    mu v' = mu v /\
    map Name (readers v') = map Name (readers v) /\
    (wf_readers (readers v) -> wf_readers (readers v')).
Proof.
  intros Hmu.
  destruct (first_match_split name (readers v)) as [Hno | (pre & x & post & Hrs & Hpre & Hx)].
  - exists v, w. split; [now apply Complete_not_found |]. auto.
  - destruct (View_done_total env (view x) w) as (vw & Hdone & _ & _ & Hwfv & _).
    eexists _, _.
    split; [now apply (Complete_first_match env name err v w pre x post vw (emit EvNow w)) |].
    simpl. split; [reflexivity |]. split.
    + rewrite Hrs, !map_app. simpl. now rewrite Hx.
    + rewrite Hrs. intros Hwf. apply Forall_app in Hwf. destruct Hwf as [H1 H2].
      inversion H2; subst. apply Forall_app. split; [assumption |].
      constructor; [simpl; auto | assumption].
Qed.

Lemma list_last_cases {A} (l : list A) :
  l = [] \/ exists l' a, l = (l' ++ [a])%list.
Proof.
  destruct l as [| x l]; [now left |]. right.
  destruct (exists_last (l := x :: l)) as (l' & a & E); [discriminate |].
  now exists l', a.
Qed.

Lemma Remove_single name v w e :
  mu v <> None -> readers v = [e] -> Name e = name ->
  Remove name v w = Panic (SliceBoundsOutOfRange (-1)).
Proof.
  intros Hmu Hrs Hx. unfold Remove.
  rewrite (bind_Ok _ _ _ _ _ (Lock_started v w Hmu)).
  unfold bind. rewrite Hrs. cbn [Remove_loop]. rewrite Hx, String.eqb_refl. reflexivity.
Qed.

(** [Remove] on a started registry: the four ways it can go. *)
Lemma Remove_outcome name v w :
  mu v <> None ->
  (exists v', Remove name v w = Ok (v', w) /\ mu v' = mu v) \/
  Remove name v w = Panic (SliceBoundsOutOfRange (-1)).
Proof.
  intros Hmu.
  destruct (first_match_split name (readers v)) as [Hno | (pre & x & post & Hrs & Hpre & Hx)].
  - left. exists v. split; [now apply Remove_not_found | reflexivity].
  - destruct post as [| y post].
    + destruct (list_last_cases pre) as [-> | (pre' & y & ->)].
      * right. now apply (Remove_single name v w x).
      * left. apply Forall_app in Hpre. destruct Hpre as [Hpre' Hy].
        inversion Hy; subst. eexists. split.
        -- apply (Remove_last (Name x) v w pre' y x); auto.
           now rewrite Hrs, <- app_assoc.
        -- reflexivity.
    + left. eexists. split.
      * now apply (Remove_not_last name v w pre x y post).
      * reflexivity.
Qed.

(** X11. On a started registry calls of [Add] and [Complete], in any
    number and order, all succeed, whatever handles and names they are
    given and whatever [Stat], [Seek] and the clock answer. The names of
    the entries are then the names there were, followed by the names
    added, in the order of the calls. *)
Theorem Add_and_Complete_never_fail
    (env : Env) (cs : list call) (v : Viz) (w : World) :
  mu v <> None -> wf_readers (readers v) ->
  forallb (fun c => negb (is_remove c)) cs = true ->
  exists v' w',
    do_calls env cs v w = Ok (v', w') /\
    map Name (readers v') = (map Name (readers v) ++ added cs)%list /\
    mu v' <> None /\ wf_readers (readers v').
Proof.
  revert v w. induction cs as [| c cs IH]; intros v w Hmu Hwf Hcs.
  - exists v, w. split; [reflexivity |]. simpl. rewrite app_nil_r. auto.
  - simpl in Hcs. apply andb_true_iff in Hcs. destruct Hcs as [Hc Hcs].
    cbn [do_calls]. destruct c as [name rdr | name err | name]; [| | discriminate].
    + destruct (Add_names env name rdr v w Hmu Hwf)
        as (v1 & w1 & info & Hadd & Hmu1 & _ & _ & HN & Hwf1).
      cbn [do_call]. rewrite (bind_Ok _ _ _ _ _ Hadd).
      destruct (IH v1 w1) as (v' & w' & Hgo & HN' & Hmu' & Hwf'); auto; [congruence |].
      exists v', w'. split; [exact Hgo |]. split; [| auto].
      rewrite HN', HN, <- app_assoc. reflexivity.
    + destruct (Complete_total env name err v w Hmu) as (v1 & w1 & Hc1 & Hmu1 & HN & Hwf1).
      cbn [do_call]. rewrite (bind_Ok _ _ _ _ _ Hc1).
      destruct (IH v1 w1) as (v' & w' & Hgo & HN' & Hmu' & Hwf'); auto; [congruence |].
      exists v', w'. split; [exact Hgo |]. split; [| auto].
      rewrite HN', HN. reflexivity.
Qed.

Lemma Add_and_Complete_never_fail_witness :
  exists v' w',
    do_calls broken_env
      [CallAdd "a" GzipReader; CallAdd "b" (OsFile (Some 3%nat));
       CallComplete "a" (Some "failed"); CallAdd "c" (OsFile None);
       CallComplete "zz" None]
      (mkViz (Some mkMutex) [] Second 0) world0 = Ok (v', w') /\
    map Name (readers v') = ["a"; "b"; "c"] /\
    mu v' <> None /\ wf_readers (readers v').
Proof.
  apply (Add_and_Complete_never_fail broken_env
           [CallAdd "a" GzipReader; CallAdd "b" (OsFile (Some 3%nat));
            CallComplete "a" (Some "failed"); CallAdd "c" (OsFile None);
            CallComplete "zz" None]
           (mkViz (Some mkMutex) [] Second 0) world0).
  - simpl. discriminate.
  - constructor.
  - reflexivity.
Defined.

(** X12. On a started registry calls of [Add], [Complete] and [Remove] in
    any number and order either all succeed, and leave the registry
    started with every spinner index within the wheel, or they stop at a
    [Remove] with the slice bound -1 out of range: there is no other
    panic, in particular no index out of range in a redraw. *)
Theorem calls_fail_only_in_Remove
    (env : Env) (cs : list call) (v : Viz) (w : World) :
  mu v <> None -> wf_readers (readers v) ->
  (exists v' w',
     do_calls env cs v w = Ok (v', w') /\
     mu v' <> None /\ wf_readers (readers v')) \/
  do_calls env cs v w = Panic (SliceBoundsOutOfRange (-1)).
Proof.
  revert v w. induction cs as [| c cs IH]; intros v w Hmu Hwf.
  - left. exists v, w. auto.
  - cbn [do_calls]. destruct c as [name rdr | name err | name]; cbn [do_call].
    + destruct (Add_names env name rdr v w Hmu Hwf)
        as (v1 & w1 & info & Hadd & Hmu1 & _ & _ & _ & Hwf1).
      rewrite (bind_Ok _ _ _ _ _ Hadd). apply IH; [congruence | exact Hwf1].
    + destruct (Complete_total env name err v w Hmu) as (v1 & w1 & Hc1 & Hmu1 & _ & Hwf1).
      rewrite (bind_Ok _ _ _ _ _ Hc1). apply IH; [congruence | auto].
    + destruct (Remove_outcome name v w Hmu) as [(v1 & Hr & Hmu1) | Hp].
      * rewrite (bind_Ok _ _ _ _ _ Hr). apply IH; [congruence |].
        now destruct (Remove_wf name v w v1 w Hwf Hr).
      * right. unfold bind. now rewrite Hp.
Qed.

Lemma calls_fail_only_in_Remove_witness :
  (exists v' w',
     do_calls quick_env
       [CallAdd "a" OtherValue; CallRemove "a"; CallAdd "b" OtherValue]
       (mkViz (Some mkMutex) [] Second 0) world0 = Ok (v', w') /\
     mu v' <> None /\ wf_readers (readers v')) \/
  do_calls quick_env
    [CallAdd "a" OtherValue; CallRemove "a"; CallAdd "b" OtherValue]
    (mkViz (Some mkMutex) [] Second 0) world0 = Panic (SliceBoundsOutOfRange (-1)).
Proof.
  apply (calls_fail_only_in_Remove quick_env
           [CallAdd "a" OtherValue; CallRemove "a"; CallAdd "b" OtherValue]
           (mkViz (Some mkMutex) [] Second 0) world0).
  - simpl. discriminate.
  - constructor.
Defined.

Lemma Forall2_same_entry_fresh name rs rs' :
  Forall2 same_entry rs rs' ->
  Forall (fun r => Name r <> name) rs -> Forall (fun r => Name r <> name) rs'.
Proof.
  induction 1 as [| r r' rs rs' (N & _) _ IH]; intros H; inversion H; subst;
    constructor; [congruence | auto].
Qed.

Lemma Forall2_same_entry_single r rs' :
  Forall2 same_entry [r] rs' -> exists r', rs' = [r'] /\ Name r' = Name r.
Proof.
  intros H. inversion H as [| ? r' ? l' (N & _) Hl]; subst.
  inversion Hl; subst. now exists r'.
Qed.

(** X13. [Add] puts the new entry last, and [Remove] goes wrong at the last
    entry: on a started registry, [Add] of a name no entry has, followed
    at once by [Remove] of that name, panics with the slice bound -1 when
    the registry was empty, and otherwise succeeds and leaves the names of
    the registry as before the [Add] less the last of them. *)
Theorem Add_then_Remove_of_new_name
    (env : Env) (name : string) (rdr : reader) (v : Viz) (w : World) :
  mu v <> None -> wf_readers (readers v) ->
  Forall (fun r => Name r <> name) (readers v) ->
  exists v1 w1,
    Add env name rdr v w = Ok (v1, w1) /\
    (readers v = [] -> Remove name v1 w1 = Panic (SliceBoundsOutOfRange (-1))) /\
    (forall pre y, readers v = (pre ++ [y])%list ->
       exists v2, Remove name v1 w1 = Ok (v2, w1) /\
                  map Name (readers v2) = map Name pre).
Proof.
  intros Hmu Hwf Hfresh.
  destruct (Add_names env name rdr v w Hmu Hwf)
    as (v1 & w1 & info & Hadd & Hmu1 & Hname & Hsame & _ & _).
  assert (Hmu1' : mu v1 <> None) by congruence.
  exists v1, w1. split; [exact Hadd |]. split.
  - intros Hrs. rewrite Hrs in Hsame. simpl in Hsame.
    destruct (Forall2_same_entry_single _ _ Hsame) as (x' & Hrs1 & Hx').
    apply (Remove_single name v1 w1 x'); congruence.
  - intros pre y Hrs. rewrite Hrs in Hsame, Hfresh.
    apply Forall2_app_inv_l in Hsame. destruct Hsame as (a' & b' & Ha & Hb & Hrs1).
    destruct (Forall2_same_entry_single _ _ Hb) as (x' & -> & Hx').
    pose proof (Forall2_same_entry_fresh name _ _ Ha Hfresh) as Hfresh'.
    apply Forall2_app_inv_l in Ha. destruct Ha as (pre' & c' & Hpre & Hc & ->).
    destruct (Forall2_same_entry_single _ _ Hc) as (y' & -> & Hy').
    apply Forall_app in Hfresh'. destruct Hfresh' as [Hp' Hy''].
    inversion Hy''; subst.
    exists (set_readers v1 pre'). split.
    + apply (Remove_last (Name info) v1 w1 pre' y' x'); auto; try congruence.
      now rewrite Hrs1, <- app_assoc.
    + simpl. now destruct (Forall2_same_entry_maps _ _ Hpre) as (HN & _).
Qed.

Lemma Add_then_Remove_of_new_name_witness :
  exists v1 w1,
    Add quick_env "c" OtherValue
      (mkViz (Some mkMutex)
         [mkReadInfo "a" (VSpinner (mkSpinner 0 0 0)) None;
          mkReadInfo "b" (VSpinner (mkSpinner 0 0 0)) None] 0 0) world0 = Ok (v1, w1) /\
    ([mkReadInfo "a" (VSpinner (mkSpinner 0 0 0)) None;
      mkReadInfo "b" (VSpinner (mkSpinner 0 0 0)) None] = [] ->
     Remove "c" v1 w1 = Panic (SliceBoundsOutOfRange (-1))) /\
    (forall pre y,
       [mkReadInfo "a" (VSpinner (mkSpinner 0 0 0)) None;
        mkReadInfo "b" (VSpinner (mkSpinner 0 0 0)) None] = (pre ++ [y])%list ->
       exists v2, Remove "c" v1 w1 = Ok (v2, w1) /\
                  map Name (readers v2) = map Name pre).
Proof.
  apply (Add_then_Remove_of_new_name quick_env "c" OtherValue
           (mkViz (Some mkMutex)
              [mkReadInfo "a" (VSpinner (mkSpinner 0 0 0)) None;
               mkReadInfo "b" (VSpinner (mkSpinner 0 0 0)) None] 0 0) world0).
  - simpl. discriminate.
  - constructor; [| constructor; [| constructor]]; simpl; rewrite len_Wheel; lia.
  - constructor; [| constructor; [| constructor]]; simpl; discriminate.
Defined.

(** ** status.go: the OffsetTracker at work *)

(** X14. A position read that fails in a later second than the one the
    wrapper was made in ends the wrapper: that query answers the elapsed
    time and 100% and returns no error, and every later query gives the
    same answer without another read of position or clock. *)
Theorem failed_read_in_later_second_is_final
    (env : Env) (fw : fileWrapper) (fd : nat) (err : error) (w : World) :
  w_elapsed fw = 0 -> w_f fw = Some fd ->
  env_seek env fd (tick w) = inr err ->
  Truncate (env_now env (S (tick w))) Second <> w_start fw ->
  exists fw' w',
    fileWrapper_readStatus env fw w = Ok (fw', terminal (w_elapsed fw'), w') /\
    w_elapsed fw' = Sub (Truncate (env_now env (S (tick w))) Second) (w_start fw) /\
    w_elapsed fw' <> 0 /\
    forall w2, fileWrapper_readStatus env fw' w2 = Ok (fw', terminal (w_elapsed fw'), w2).
Proof.
  intros Hel Hf Hseek Hnow.
  pose proof (fileWrapper_readStatus_failure env fw fd err w Hel Hf Hseek) as Hq.
  cbv zeta in Hq. eexists _, _. split; [exact Hq |]. split; [reflexivity |].
  destruct (fileWrapper_failure_freezes env fw fd err w _ _ _ Hel Hf Hseek Hnow Hq)
    as (_ & Hnz & Hfrozen).
  split; assumption.
Qed.

Lemma failed_read_in_later_second_is_final_witness :
  exists fw' w',
    fileWrapper_readStatus broken_env
      (mkFileWrapper (float64_of_int 10) (Some 3%nat) 2000000000 0) world0
    = Ok (fw', terminal (w_elapsed fw'), w') /\
    w_elapsed fw' = Sub (Truncate (env_now broken_env 1) Second) 2000000000 /\
    w_elapsed fw' <> 0 /\
    forall w2, fileWrapper_readStatus broken_env fw' w2 = Ok (fw', terminal (w_elapsed fw'), w2).
Proof.
  apply (failed_read_in_later_second_is_final broken_env
           (mkFileWrapper (float64_of_int 10) (Some 3%nat) 2000000000 0)
           3%nat "file already closed" world0).
  - reflexivity.
  - reflexivity.
  - reflexivity.
  - simpl. discriminate.
Defined.

(** X15. Over a file whose [Stat] reports [size] bytes, a query that reads
    position [pos] shows [float64(pos) / (float64(size) / 100)], computed
    in float64, and leaves the wrapper as it was, not done: the next query
    reads the position again. *)
Theorem offset_percent_is_position_over_size
    (env : Env) (fd : nat) (size pos : Z) (w w2 : World) :
  env_stat env fd (tick w) = inl size ->
  env_seek env fd (tick w2) = inl pos ->
  exists fw w1 st w3,
    wrapFile env (Some fd) w = Ok (inl fw, w1) /\
    fileWrapper_readStatus env fw w2 = Ok (fw, st, w3) /\
    percent st =
      Some (float64_div (float64_of_int pos) (float64_div (float64_of_int size) f100)) /\
    w_elapsed fw = 0 /\
    trace w3 = (trace w2 ++ [EvSeek (Some fd); EvNow])%list.
Proof.
  intros Hstat Hseek.
  pose proof (wrapFile_ok env fd size w Hstat) as Hwrap.
  eexists _, _, _, _. split; [exact Hwrap |]. split.
  - now apply (fileWrapper_readStatus_position env _ fd pos w2).
  - split; [reflexivity |]. split; [reflexivity |].
    rewrite !trace_emit, <- app_assoc. reflexivity.
Qed.

Lemma offset_percent_is_position_over_size_witness :
  exists fw w1 st w3,
    wrapFile quick_env (Some 3%nat) world0 = Ok (inl fw, w1) /\
    fileWrapper_readStatus quick_env fw world0 = Ok (fw, st, w3) /\
    percent st =
      Some (float64_div (float64_of_int 500) (float64_div (float64_of_int 1000) f100)) /\
    w_elapsed fw = 0 /\
    trace w3 = (trace world0 ++ [EvSeek (Some 3%nat); EvNow])%list.
Proof.
  apply (offset_percent_is_position_over_size quick_env 3%nat 1000 500 world0 world0);
    reflexivity.
Defined.

(** X16. [wrapFile] never panics. It yields a wrapper exactly when the
    file is not nil and [Stat] succeeds: the wrapper then holds a
    hundredth of the size, the file, the clock truncated to the second as
    start, and is not done. For a nil file it yields ErrInvalid, for a
    failing [Stat] the error of [Stat], and in both cases no wrapper, and
    the clock is not read. *)
Theorem wrapFile_wraps_or_returns_Stat_error (env : Env) (f : File) (w : World) :
  exists r w',
    wrapFile env f w = Ok (r, w') /\
    match r with
    | inl fw =>
        exists fd size,
          f = Some fd /\ env_stat env fd (tick w) = inl size /\
          fw = mkFileWrapper (float64_div (float64_of_int size) f100) f
                 (Truncate (env_now env (S (tick w))) Second) 0 /\
          trace w' = (trace w ++ [EvStat f; EvNow])%list
    | inr err =>
        (f = None /\ err = ErrInvalid \/
         exists fd, f = Some fd /\ env_stat env fd (tick w) = inr err) /\
        trace w' = (trace w ++ [EvStat f])%list
    end.
Proof.
  destruct f as [fd |].
  - destruct (env_stat env fd (tick w)) as [size | err] eqn:E.
    + eexists _, _. split; [exact (wrapFile_ok env fd size w E) |].
      exists fd, size. split; [reflexivity |]. split; [exact E |].
      split; [reflexivity |].
      rewrite !trace_emit, <- app_assoc. reflexivity.
    + eexists _, _. split; [exact (wrapFile_error env fd err w E) |].
      split; [right; now exists fd | reflexivity].
  - eexists _, _. split; [apply wrapFile_nil |].
    split; [now left | reflexivity].
Qed.

(** ** status.go: the elapsed time shown *)

Lemma Truncate_Second_eq t : Truncate t Second = Second * (t / Second).
Proof.
  unfold Truncate, Second. cbn [Z.leb Z.compare].
  pose proof (Z.div_mod t 1000000000). lia.
Qed.

Lemma Sub_of_seconds t0 t1 :
  0 <= t1 - t0 < maxInt64 - Second ->
  let d := Sub (Truncate t1 Second) (Truncate t0 Second) in
  0 <= d /\ d mod Second = 0 /\ d - Second < t1 - t0 < d + Second.
Proof.
  intros Ht. cbv zeta. rewrite !Truncate_Second_eq.
  assert (Hdiv : t0 / Second <= t1 / Second) by (apply Z.div_le_mono; unfold Second; lia).
  pose proof (Z.div_mod t0 Second) as H0. pose proof (Z.div_mod t1 Second) as H1.
  pose proof (Z.mod_pos_bound t0 Second) as B0. pose proof (Z.mod_pos_bound t1 Second) as B1.
  unfold Second, maxInt64 in *.
  assert (E : Sub (1000000000 * (t1 / 1000000000)) (1000000000 * (t0 / 1000000000))
              = 1000000000 * (t1 / 1000000000 - t0 / 1000000000)).
  { unfold Sub, minInt64, maxInt64. lia. }
  rewrite E. split; [lia |]. split; [| lia].
  rewrite Z.mul_comm. apply Z.mod_mul. lia.
Qed.

(** The view made by the type switch of [Add] is not done, and its start
    is a reading of the clock during the switch, truncated to the second. *)
Lemma Add_switch_start env name rdr w :
  exists info w1 i,
    Add_switch env name rdr w = Ok (info, w1) /\
    wf_view (view info) /\ elapsed_of (view info) = 0 /\
    (tick w <= i < tick w1)%nat /\
    start_of (view info) = Truncate (env_now env i) Second.
Proof.
  assert (Hwheel : 0 <= 0 < len Wheel) by (rewrite len_Wheel; lia).
  destruct rdr as [| f |]; unfold Add_switch.
  - rewrite (bind_Ok _ _ _ _ _ (newSpinner_eq env w)).
    eexists _, _, (tick w). split; [reflexivity |]. simpl. repeat split; auto; lia.
  - destruct f as [fd |].
    + destruct (env_stat env fd (tick w)) as [size | err] eqn:Estat.
      * rewrite (bind_Ok _ _ _ _ _ (wrapFile_ok env fd size w Estat)).
        eexists _, _, (S (tick w)). split; [reflexivity |]. simpl. repeat split; auto; lia.
      * rewrite (bind_Ok _ _ _ _ _ (wrapFile_error env fd err w Estat)).
        rewrite (bind_Ok _ _ _ _ _ (newSpinner_eq env _)).
        eexists _, _, (S (tick w)). split; [reflexivity |]. simpl. repeat split; auto; lia.
    + rewrite (bind_Ok _ _ _ _ _ (wrapFile_nil env w)).
      rewrite (bind_Ok _ _ _ _ _ (newSpinner_eq env _)).
      eexists _, _, (S (tick w)). split; [reflexivity |]. simpl. repeat split; auto; lia.
  - rewrite (bind_Ok _ _ _ _ _ (newSpinner_eq env w)).
    eexists _, _, (tick w). split; [reflexivity |]. simpl. repeat split; auto; lia.
Qed.

(** The elapsed time a view that is not done shows: the clock at the
    query, truncated to the second, less the start. *)
Lemma View_readStatus_live_duration env v w :
  wf_view v -> elapsed_of v = 0 ->
  exists v' st w' j x,
    View_readStatus env v w = Ok (v', st, w') /\
    (tick w <= j <= S (tick w))%nat /\
    args st = [ArgDuration (Sub (Truncate (env_now env j) Second) (start_of v)); x].
Proof.
  destruct v as [s | fw]; intros Hwf E; unfold View_readStatus;
    cbn [readStatus spinner_view fileWrapper_view elapsed_of start_of] in *.
  - simpl in Hwf. rewrite len_Wheel in Hwf.
    rewrite (bind_Ok _ _ _ _ _ (spinner_readStatus_live env s w E Hwf)).
    eexists _, _, _, (tick w), _. split; [reflexivity |]. split; [lia | reflexivity].
  - destruct (w_f fw) as [fd |] eqn:Ef.
    + destruct (env_seek env fd (tick w)) as [pos | err] eqn:Es.
      * rewrite (bind_Ok _ _ _ _ _ (fileWrapper_readStatus_position env fw fd pos w E Ef Es)).
        eexists _, _, _, (S (tick w)), _. split; [reflexivity |]. split; [lia | reflexivity].
      * rewrite (bind_Ok _ _ _ _ _ (fileWrapper_readStatus_failure env fw fd err w E Ef Es)).
        eexists _, _, _, (S (tick w)), _. split; [reflexivity |]. split; [lia | reflexivity].
    + unfold bind, fileWrapper_readStatus. rewrite E, Ef.
      change (negb (0 =? 0)) with false. cbn beta iota.
      unfold bind, os_Seek. rewrite now_seconds_eq. unfold ret.
      eexists _, _, _, (S (tick w)), _. split; [reflexivity |]. split; [lia | reflexivity].
Qed.

(** X17. A status query on the view as the type switch of [Add] made it,
    whatever the handle: while the wall clock does not go back and stays
    within 292 years, the elapsed time shown is a whole number of seconds
    and not negative, because both the start and the time of the query
    are truncated to the second. *)
Theorem new_entry_shows_whole_seconds
    (env : Env) (name : string) (rdr : reader) (w0 : World)
    (info : readInfo) (w1 w : World) :
  Add_switch env name rdr w0 = Ok (info, w1) ->
  (tick w1 <= tick w)%nat ->
  (forall i j, (i <= j <= S (tick w))%nat ->
     0 <= env_now env j - env_now env i < maxInt64 - Second) ->
  exists v' st w' d x,
    View_readStatus env (view info) w = Ok (v', st, w') /\
    args st = [ArgDuration d; x] /\
    0 <= d /\ d mod Second = 0.
Proof.
  intros Hinfo Hlater Hclock.
  destruct (Add_switch_start env name rdr w0) as (info' & w1' & i & Hsw & Hwf & Hel & Hi & Hstart).
  rewrite Hinfo in Hsw. injection Hsw as <- <-.
  destruct (View_readStatus_live_duration env (view info) w Hwf Hel)
    as (v' & st & w' & j & x & Hq & Hj & Hargs).
  rewrite Hstart in Hargs.
  assert (Hij : 0 <= env_now env j - env_now env i < maxInt64 - Second)
    by (apply Hclock; lia).
  destruct (Sub_of_seconds (env_now env i) (env_now env j) Hij) as (Hd0 & Hdm & _).
  eexists v', st, w', _, x. split; [exact Hq |]. split; [exact Hargs |].
  split; assumption.
Qed.

Lemma new_entry_shows_whole_seconds_witness :
  exists v' st w' d x,
    View_readStatus broken_env
      (VSpinner (mkSpinner 0 5000000000 0))
      (mkWorld 9 []) = Ok (v', st, w') /\
    args st = [ArgDuration d; x] /\
    0 <= d /\ d mod Second = 0.
Proof.
  apply (new_entry_shows_whole_seconds broken_env "a" GzipReader world0
           (mkReadInfo "a" (VSpinner (mkSpinner 0 5000000000 0)) (Some gzipError))
           (mkWorld 1 [EvNow]) (mkWorld 9 [])).
  - reflexivity.
  - simpl. lia.
  - intros i j Hij. simpl in Hij. unfold broken_env, env_now, maxInt64, Second. lia.
Defined.

(** ** BoundedExec: the order of the names, and no names *)

Lemma fifo_step n names l s s' :
  (began s ++ buf s ++ remaining names (pc s))%list = names ->
  step n names l s = Some s' ->
  (began s' ++ buf s' ++ remaining names (pc s'))%list = names.
Proof.
  destruct s as [p c b cl g pl bg en]. cbn [pc buf began]. intros Hf.
  destruct l as [| k | k]; unfold step, step_main, step_handoff, step_worker;
    cbn [pc cap buf closed wg pool began ended].
  - destruct p as [i | [| x rest] | |].
    + destruct (i <? n); intros H; injection H as <-; exact Hf.
    + intros H; injection H as <-. exact Hf.
    + destruct (length_Z b <? c); [| discriminate].
      intros H; injection H as <-. cbn [pc buf began remaining] in *.
      etransitivity; [| exact Hf]. rewrite <- !app_assoc. reflexivity.
    + destruct (g =? 0); [| discriminate]. intros H; injection H as <-. exact Hf.
    + discriminate.
  - destruct p as [i | [| x rest] | |]; try discriminate.
    destruct b; try discriminate.
    destruct (nth_error pl k) as [[| y |] |]; try discriminate.
    intros H; injection H as <-. cbn [pc buf began remaining] in *.
    etransitivity; [| exact Hf]. rewrite <- !app_assoc. reflexivity.
  - destruct (nth_error pl k) as [[| y |] |]; try discriminate.
    + destruct b as [| x b].
      * destruct cl; [| discriminate]. intros H; injection H as <-. exact Hf.
      * intros H; injection H as <-. cbn [pc buf began] in *.
        etransitivity; [| exact Hf]. rewrite <- !app_assoc. reflexivity.
    + intros H; injection H as <-. exact Hf.
Qed.

Lemma fifo_run n names sched : forall s s',
  (began s ++ buf s ++ remaining names (pc s))%list = names ->
  run n names sched s = Some s' ->
  (began s' ++ buf s' ++ remaining names (pc s'))%list = names.
Proof.
  induction sched as [| l sched IH]; intros s s' Hf H; simpl in H.
  - now injection H as <-.
  - destruct (step n names l s) as [s1 |] eqn:E; [| discriminate].
    eapply IH; [| exact H]. eapply fifo_step; eassumption.
Qed.

Lemma live_le_length l : live l <= length_Z l.
Proof. unfold live, length_Z. apply inj_le. apply filter_length_le. Qed.

(** X18. In every state of every execution of [BoundedExec], for every
    [n] the queue can be made with: the names the workers have received,
    in the order received, then the names in the queue, then the names
    the main goroutine has still to send, are the input sequence, so the
    names are received in the order of the input; the queue holds at most
    [n] names; and the counter of the WaitGroup is between 0 and [n]. *)
Theorem BoundedExec_hands_names_in_order
    (n : Z) (names : list string) (s0 : exec) (sched : list label) (s : exec) :
  BoundedExec_init n = Ok s0 ->
  run n names sched s0 = Some s ->
  (began s ++ buf s ++ remaining names (pc s))%list = names /\
  length_Z (buf s) <= n /\
  0 <= wg s <= n.
Proof.
  intros H0 Hrun.
  assert (HI : Inv n names s).
  { eapply Inv_run; [| exact Hrun]. now apply Inv_init. }
  split; [| split].
  - eapply fifo_run; [| exact Hrun].
    unfold BoundedExec_init in H0. destruct (n <? 0); [discriminate |].
    injection H0 as <-. reflexivity.
  - apply (inv_buf _ _ _ HI).
  - rewrite (inv_wg _ _ _ HI).
    pose proof (live_nonneg (pool s)). pose proof (live_le_length (pool s)).
    pose proof (inv_pool _ _ _ HI) as Hp. destruct (pc s); lia.
Qed.

Lemma BoundedExec_hands_names_in_order_witness :
  (began (mkExec (Sending ["f3"; "f4"; "f5"; "f6"; "f7"; "f8"; "f9"]) 3 []
                 false 3 [Calling "f0"; Calling "f1"; Calling "f2"]
                 ["f0"; "f1"; "f2"] [])
   ++ buf (mkExec (Sending ["f3"; "f4"; "f5"; "f6"; "f7"; "f8"; "f9"]) 3 []
                  false 3 [Calling "f0"; Calling "f1"; Calling "f2"]
                  ["f0"; "f1"; "f2"] [])
   ++ remaining ten_names
        (pc (mkExec (Sending ["f3"; "f4"; "f5"; "f6"; "f7"; "f8"; "f9"]) 3 []
                    false 3 [Calling "f0"; Calling "f1"; Calling "f2"]
                    ["f0"; "f1"; "f2"] [])))%list = ten_names /\
  length_Z (buf (mkExec (Sending ["f3"; "f4"; "f5"; "f6"; "f7"; "f8"; "f9"]) 3 []
                        false 3 [Calling "f0"; Calling "f1"; Calling "f2"]
                        ["f0"; "f1"; "f2"] [])) <= 3 /\
  0 <= wg (mkExec (Sending ["f3"; "f4"; "f5"; "f6"; "f7"; "f8"; "f9"]) 3 []
                  false 3 [Calling "f0"; Calling "f1"; Calling "f2"]
                  ["f0"; "f1"; "f2"] []) <= 3.
Proof.
  apply (BoundedExec_hands_names_in_order 3 ten_names
           (mkExec (Spawning 0) 3 [] false 0 [] [] [])
           (firstn 10 three_busy)).
  - reflexivity.
  - reflexivity.
Defined.

(** Without names an execution that has not returned is never stuck,
    whatever the number of workers. *)
Lemma Inv_progress_no_names n s :
  Inv n [] s -> pc s <> Returned ->
  exists l s', step n [] l s = Some s'.
Proof.
  intros [Hcap Hpool Hwg Hitems Hcalls Hclosed Hexit Hbuf Hret] Hpc.
  destruct (pc s) as [i | [| x rest] | |] eqn:Epc.
  - exists Main. unfold step, step_main. rewrite Epc.
    destruct (i <? n); eexists; reflexivity.
  - exists Main. unfold step, step_main. rewrite Epc. eexists; reflexivity.
  - cbn [remaining] in Hitems. apply Permutation_sym, Permutation_nil in Hitems.
    apply app_eq_nil in Hitems. destruct Hitems as [_ Hitems].
    apply app_eq_nil in Hitems. destruct Hitems as [_ Hitems]. discriminate.
  - destruct (Z.eqb_spec (wg s) 0) as [Hz | Hnz].
    + exists Main. unfold step, step_main. rewrite Epc.
      apply Z.eqb_eq in Hz. rewrite Hz. eexists; reflexivity.
    + rewrite Hwg in Hnz. destruct (live_pos_exists _ Hnz) as (k & g & Hk & Hg).
      exists (Worker k). apply worker_can_move with (g := g); auto.
  - contradiction.
Qed.

(** X19. [BoundedExec] over no names, for every [n >= 0], zero included:
    [nameFunc] is never called, the execution is never stuck before the
    return, and it takes at most [2 n + 3] steps: the workers are spawned,
    find the queue closed and return, and the dispatcher returns. *)
Theorem BoundedExec_without_names (n : Z) :
  0 <= n ->
  exists s0,
    BoundedExec_init n = Ok s0 /\
    forall sched s, run n [] sched s0 = Some s ->
      began s = [] /\ ended s = [] /\ buf s = [] /\
      (pc s <> Returned -> exists l s', step n [] l s = Some s') /\
      (Z.of_nat (List.length sched) <= 2 * n + 3).
Proof.
  intros Hn. unfold BoundedExec_init.
  destruct (Z.ltb_spec n 0) as [Hlt | _]; [lia |].
  eexists. split; [reflexivity |]. intros sched s Hrun.
  assert (HI : Inv n [] s).
  { eapply Inv_run; [| exact Hrun]. apply Inv_init. unfold BoundedExec_init.
    destruct (Z.ltb_spec n 0); [lia | reflexivity]. }
  pose proof (inv_items _ _ _ HI) as Hitems.
  apply Permutation_sym, Permutation_nil in Hitems.
  apply app_eq_nil in Hitems. destruct Hitems as [Hb Hitems].
  apply app_eq_nil in Hitems. destruct Hitems as [Hbuf _].
  pose proof (inv_calls _ _ _ HI) as Hcalls. rewrite Hb in Hcalls.
  apply Permutation_sym, Permutation_nil in Hcalls.
  apply app_eq_nil in Hcalls. destruct Hcalls as [He _].
  split; [exact Hb |]. split; [exact He |]. split; [exact Hbuf |]. split.
  - intros Hpc. now apply Inv_progress_no_names.
  - apply run_measure in Hrun. unfold measure in Hrun. simpl in Hrun. lia.
Qed.

Lemma BoundedExec_without_names_witness :
  exists s0,
    BoundedExec_init 0 = Ok s0 /\
    forall sched s, run 0 [] sched s0 = Some s ->
      began s = [] /\ ended s = [] /\ buf s = [] /\
      (pc s <> Returned -> exists l s', step 0 [] l s = Some s') /\
      (Z.of_nat (List.length sched) <= 2 * 0 + 3).
Proof.
  apply (BoundedExec_without_names 0). lia.
Defined.

(** ** The registry: Add shows the entry, Remove twice *)

Lemma rows_drawn_pos h rs x :
  2 <= h -> (1 <= rows_drawn h (rs ++ [x]))%nat.
Proof.
  intros Hh. rewrite rows_drawn_min, length_app. simpl. lia.
Qed.

(** X20. [Add] on a started registry redraws once before it returns: the
    terminal is flushed exactly once, and when the terminal has at least
    two rows the first row under the header shows the new entry, with its
    name and the text of the error the type switch attached to it. *)
Theorem Add_paints_the_new_entry
    (env : Env) (name : string) (rdr : reader) (v : Viz) (w : World) :
  mu v <> None -> wf_readers (readers v) ->
  exists info w1 v' w' evs,
    Add_switch env name rdr w = Ok (info, w1) /\
    Add env name rdr v w = Ok (v', w') /\
    Name info = name /\
    trace w' = (trace w1 ++ evs)%list /\
    flushes evs = 1%nat /\
    (2 <= snd (env_size env (tick w1)) ->
     exists more, rows_of evs = (1, row_key info) :: more).
Proof.
  intros Hmu Hwf.
  destruct (Add_switch_total env name rdr w) as (info & w1 & Hinfo & Hname & Hview & _).
  assert (Hwf' : wf_readers (readers (set_readers v (readers v ++ [info])))).
  { simpl. apply Forall_app. split; [exact Hwf | now constructor]. }
  destruct (redrawLocked_spec env _ w1 Hwf') as (rs' & w' & evs & Hrun & _ & _ & Htr & Hrows & Hfl).
  exists info, w1, (set_readers (set_readers v (readers v ++ [info])) rs'), w', evs.
  split; [exact Hinfo |]. split.
  { unfold Add. rewrite (bind_Ok _ _ _ _ _ Hinfo).
    rewrite (bind_Ok _ _ _ _ _ (Lock_started v w1 Hmu)). exact Hrun. }
  split; [exact Hname |]. split; [exact Htr |]. split; [exact Hfl |].
  intros Hh. rewrite Hrows. simpl readers.
  pose proof (rows_drawn_pos _ (readers v) info Hh) as Hpos.
  destruct (rows_drawn (snd (env_size env (tick w1))) (readers v ++ [info])) as [| m];
    [lia |].
  rewrite map_app, rev_app_distr. cbn [map rev app firstn numbered].
  eexists. reflexivity.
Qed.

Lemma Add_paints_the_new_entry_witness :
  exists info w1 v' w' evs,
    Add_switch broken_env "b" (OsFile None) world0 = Ok (info, w1) /\
    Add broken_env "b" (OsFile None)
      (mkViz (Some mkMutex) [mkReadInfo "a" (VSpinner (mkSpinner 0 0 0)) None] 0 0) world0
    = Ok (v', w') /\
    Name info = "b" /\
    trace w' = (trace w1 ++ evs)%list /\
    flushes evs = 1%nat /\
    (2 <= snd (env_size broken_env (tick w1)) ->
     exists more, rows_of evs = (1, row_key info) :: more).
Proof.
  apply (Add_paints_the_new_entry broken_env "b" (OsFile None)
           (mkViz (Some mkMutex) [mkReadInfo "a" (VSpinner (mkSpinner 0 0 0)) None] 0 0)
           world0).
  - simpl. discriminate.
  - constructor; [| constructor]. simpl. rewrite len_Wheel. lia.
Defined.

(** X21. On a started registry in which one entry has the name, and it is
    not the last entry, [Remove] of the name twice is [Remove] once: the
    second call finds no entry of the name and changes nothing. *)
Theorem Remove_twice_is_Remove_once
    (name : string) (v : Viz) (w : World)
    (pre : list readInfo) (x y : readInfo) (post : list readInfo) :
  mu v <> None ->
  readers v = (pre ++ x :: y :: post)%list ->
  Forall (fun r => Name r <> name) pre -> Name x = name ->
  Forall (fun r => Name r <> name) (y :: post) ->
  exists v1,
    Remove name v w = Ok (v1, w) /\
    readers v1 = (pre ++ y :: post)%list /\
    Remove name v1 w = Ok (v1, w).
Proof.
  intros Hmu Hrs Hpre Hx Hpost.
  exists (set_readers v (pre ++ y :: post)).
  split; [now apply (Remove_not_last name v w pre x y post) |].
  split; [reflexivity |].
  apply Remove_not_found; [exact Hmu |].
  simpl. apply Forall_app. split; assumption.
Qed.

Lemma Remove_twice_is_Remove_once_witness :
  exists v1,
    Remove "a"
      (mkViz (Some mkMutex)
         [mkReadInfo "a" (VSpinner (mkSpinner 0 0 0)) None;
          mkReadInfo "b" (VSpinner (mkSpinner 0 0 0)) None] 0 0) world0 = Ok (v1, world0) /\
    readers v1 = ([] ++ [mkReadInfo "b" (VSpinner (mkSpinner 0 0 0)) None])%list /\
    Remove "a" v1 world0 = Ok (v1, world0).
Proof.
  apply (Remove_twice_is_Remove_once "a"
           (mkViz (Some mkMutex)
              [mkReadInfo "a" (VSpinner (mkSpinner 0 0 0)) None;
               mkReadInfo "b" (VSpinner (mkSpinner 0 0 0)) None] 0 0) world0
           [] (mkReadInfo "a" (VSpinner (mkSpinner 0 0 0)) None)
           (mkReadInfo "b" (VSpinner (mkSpinner 0 0 0)) None) []).
  - simpl. discriminate.
  - reflexivity.
  - constructor.
  - reflexivity.
  - constructor; [simpl; discriminate | constructor].
Defined.
